(** * State-management core of the PandaBot Discord bot

    A shallow embedding of [discord_bot.py]: the mood registry
    ([user_moods], [mood_timers]), the per-user conversation ledger
    ([conversation_state]), the per-channel story ledger ([story_state]),
    the prompt built by [ask_llm], and the periodic [reset_mood_task].

    Conventions.
    - A Python [str] is a sequence of Unicode code points: [list N].
    - A Python [int] (user id, channel id, token count) is a [Z].
    - [datetime] values are microseconds on a [Z] time line.
    - The two [defaultdict(list)] stores hold references to list objects;
      the list objects live in [heap] and are mutated in place, so that
      sharing between keys is visible in the model.
    - The model call ([llm.invoke] inside the [try] of [ask_llm]) is
      external: every command that reaches it carries the outcome of that
      [try] block, [Some content] or [None] when an exception was raised.
    - Calls to [logging] are not modelled, except that the truncation loop
      returns the messages it removed (the ones it logs).
    - No command handler awaits between its first read and its last write
      of the stores ([ask_llm] contains no [await]), so handlers run
      atomically with respect to each other and to the timer task. *)

From Stdlib Require Import ZArith NArith String Ascii.
From stdpp Require Import gmap list.

Local Open Scope Z_scope.

(** ** Strings *)

Abbreviation str := (list N).

Definition lit (s : String.string) : str :=
  N_of_ascii <$> list_ascii_of_string s.

(** ["\n"] *)
Definition NL : str := [10%N].

(** The code points [str.split()] and [str.strip()] treat as whitespace
    ([Py_UNICODE_ISSPACE]). *)
Definition isspace (c : N) : bool :=
  ((9 <=? c) && (c <=? 13) || (28 <=? c) && (c <=? 32)
   || (c =? 0x85) || (c =? 0xA0) || (c =? 0x1680)
   || (0x2000 <=? c) && (c <=? 0x200A)
   || (c =? 0x2028) || (c =? 0x2029) || (c =? 0x202F)
   || (c =? 0x205F) || (c =? 0x3000))%N.

Definition flush (word : str) : list str :=
  match word with
  | [] => []
  | _ :: _ => [word]
  end.

(** [text.split()]: the maximal runs of non-whitespace code points;
    [word] is the run being read. *)
Fixpoint split_from (word text : str) : list str :=
  match text with
  | [] => flush word
  | c :: rest =>
      if isspace c then flush word ++ split_from [] rest
      else split_from (word ++ [c]) rest
  end.

Definition split (text : str) : list str := split_from [] text.

Fixpoint lstrip (text : str) : str :=
  match text with
  | [] => []
  | c :: rest => if isspace c then lstrip rest else text
  end.

Definition rstrip (text : str) : str := reverse (lstrip (reverse text)).

(** [text.strip()] *)
Definition strip (text : str) : str := rstrip (lstrip text).

(** [sep.join(parts)] *)
Fixpoint join (sep : str) (parts : list str) : str :=
  match parts with
  | [] => []
  | [p] => p
  | p :: rest => p ++ sep ++ join sep rest
  end.

(** ** Constants and helpers of the module *)

Definition TOKEN_LIMIT : Z := 4000.

Definition FRIENDLY : str := lit "friendly".

(** The text [ask_llm] returns from its [except] branch. *)
Definition FALLBACK : str := lit "Oops, I had trouble thinking. Try asking me again!".

(** [timedelta(minutes=60)], in microseconds. *)
Definition MOOD_DURATION : Z := 60 * 60 * 1000000.

(** [count_tokens(text)]: [len(text.split())]. *)
Definition count_tokens (text : str) : Z := Z.of_nat (length (split text)).

(** [sum(count_tokens(msg) for msg in conversation)] *)
Definition total_tokens (conversation : list str) : Z :=
  foldr (λ msg acc, count_tokens msg + acc) 0 conversation.

(** ** The prompt and the model call (lines 74-96) *)

Record message := Message { role : str; content : str }.

(** What a handler does to the outside world: one run of the [try] block
    of [ask_llm], whose call to the model carries [messages], or one
    [ctx.send(text)]. *)
Inductive event :=
  | Query (messages : list message)
  | Send (text : str).

(** Lines 80-81 of [ask_llm]. *)
Definition build_prompt (question mood : str) (conversation : list str) : str :=
  let conversation_text := join NL conversation ++ NL ++ lit "User: " ++ question in
  lit "Respond in a " ++ mood ++ lit " tone." ++ NL ++ conversation_text.

(** Lines 84-87: every caller leaves [model_id] at [DEFAULT_MODEL], an
    ["anthropic."] id, so [get_llm] yields a [ChatBedrock]. *)
Definition chat_messages (prompt : str) : list message :=
  [ Message (lit "system") (lit "You are a helpful assistant.");
    Message (lit "user") prompt ].

(** What [ask_llm] returns: [outcome] is [Some response.content], or
    [None] when the [try] block raised (lines 89 and 94-96). *)
Definition reply (outcome : option str) : str :=
  match outcome with
  | Some content => strip content
  | None => FALLBACK
  end.

(** [ask_llm], lines 74-96. *)
Definition ask_llm (outcome : option str) (question mood : str)
    (conversation : list str) : str * list event :=
  let messages := chat_messages (build_prompt question mood conversation) in
  (reply outcome, [Query messages]).

(** [range(0, stop, step)] *)
Definition range_step (stop step : nat) : list nat :=
  (λ k, k * step)%nat <$> seq 0 ((stop + step - 1) / step)%nat.

(** [chunked_send(ctx, text)] with the default [chunk_size=2000]. *)
Definition chunked_send (text : str) : list event :=
  (λ i, Send (take 2000 (drop i text))) <$> range_step (length text) 2000.

(** ** The stores (lines 50-53) *)

(** A reference to a Python list object: an index into [heap]. *)
Abbreviation loc := nat.

Record State := mkState {
  user_moods : gmap Z str;
  mood_timers : gmap Z Z;
  conversation_state : gmap Z loc;
  story_state : gmap Z loc;
  heap : list (list str)
}.

(** The list object that is the default value of [ask_llm]'s
    [conversation] parameter, created once when the module is loaded. *)
Definition DEFAULT_CONVERSATION : loc := 0%nat.

Definition initial : State :=
  mkState ∅ ∅ ∅ ∅ [[]].

(** The contents of the list object at [l]. *)
Definition deref (h : list (list str)) (l : loc) : list str :=
  default [] (h !! l).

(** [d[key]] on a [defaultdict(list)]: a missing key is bound to a new,
    empty list object. *)
Definition getitem (d : gmap Z loc) (h : list (list str)) (key : Z)
    : loc * gmap Z loc * list (list str) :=
  match d !! key with
  | Some l => (l, d, h)
  | None => let l := length h in (l, <[key := l]> d, h ++ [[]])
  end.

(** [obj.append(x)] on the list object at [l]. *)
Definition list_append (h : list (list str)) (l : loc) (x : str) : list (list str) :=
  alter (λ v, v ++ [x]) l h.

(** ** Command handlers *)

Record Context := mkContext {
  author_id : Z;
  author_name : str;
  channel_id : Z
}.

(** [user_moods.get(user_id, "friendly")], lines 171, 223 and 234. *)
Definition current_mood (s : State) (user_id : Z) : str :=
  default FRIENDLY (user_moods s !! user_id).

(** [set_mood], lines 157-164; [now] is the value of [datetime.now()]. *)
Definition set_mood (s : State) (ctx : Context) (mood : str) (now : Z)
    : State * list event :=
  let user_id := author_id ctx in
  (mkState (<[user_id := mood]> (user_moods s))
           (<[user_id := now + MOOD_DURATION]> (mood_timers s))
           (conversation_state s) (story_state s) (heap s),
   [Send (lit "Bot mood for " ++ author_name ctx ++ lit " has been set to "
          ++ mood ++ lit ". It will last for 60 minutes.")]).

(** The loop of lines 180-184 on the contents of the conversation:
    the messages removed (in the order they are logged) and what is left. *)
Fixpoint truncate (conversation : list str) : list str * list str :=
  match conversation with
  | [] => ([], [])
  | removed :: rest =>
      if total_tokens conversation >? TOKEN_LIMIT
      then let '(more, kept) := truncate rest in (removed :: more, kept)
      else ([], conversation)
  end.

(** [ask_with_mood], lines 167-197. *)
Definition ask_with_mood (s : State) (ctx : Context) (question : str)
    (outcome : option str) : State * list event :=
  let user_id := author_id ctx in
  let mood := current_mood s user_id in
  let '(conversation, cs, h) := getitem (conversation_state s) (heap s) user_id in
  let h := list_append h conversation (lit "User: " ++ question) in
  let h := <[conversation := (truncate (deref h conversation)).2]> h in
  let '(response, asked) := ask_llm outcome question mood (deref h conversation) in
  let h := list_append h conversation (lit "Bot: " ++ response) in
  let cs := <[user_id := conversation]> cs in
  (mkState (user_moods s) (mood_timers s) cs (story_state s) h,
   asked ++ chunked_send response).

(** The prefix of the reply to a story read (line 212), with the code
    points the source file holds between ["Here"] and ["s"]. *)
Definition STORY_READ_PREFIX : str :=
  lit "Here" ++ [0xE2; 0x20AC; 0x2122]%N ++ lit "s the story so far:" ++ NL.

Definition NO_STORY : str := lit "No story started yet!".

(** Truth value of [addition]: [None] and the empty string are falsy. *)
Definition truthy (addition : option str) : option str :=
  match addition with
  | Some (c :: rest) => Some (c :: rest)
  | _ => None
  end.

(** [story], lines 200-215. *)
Definition story (s : State) (ctx : Context) (addition : option str)
    : State * list event :=
  let '(story, ss, h) := getitem (story_state s) (heap s) (channel_id ctx) in
  match truthy addition with
  | Some addition =>
      let h := list_append h story (author_name ctx ++ lit ": " ++ addition) in
      let response := lit "Story so far:" ++ NL ++ join NL (deref h story) in
      (mkState (user_moods s) (mood_timers s) (conversation_state s) ss h,
       chunked_send response)
  | None =>
      let response :=
        match deref h story with
        | [] => NO_STORY
        | _ :: _ => STORY_READ_PREFIX ++ join NL (deref h story)
        end in
      (mkState (user_moods s) (mood_timers s) (conversation_state s) ss h,
       chunked_send response)
  end.

Definition TRIVIA_PROMPT : str := lit "Ask me a fun trivia question.".

(** [trivia], lines 218-226: [ask_llm] runs on its default [conversation]. *)
Definition trivia (s : State) (ctx : Context) (outcome : option str)
    : State * list event :=
  let mood := current_mood s (author_id ctx) in
  let '(response, asked) :=
    ask_llm outcome TRIVIA_PROMPT mood (deref (heap s) DEFAULT_CONVERSATION) in
  (s, asked ++ chunked_send (lit "Trivia Time: " ++ response)).

(** [summarize], lines 229-237. *)
Definition summarize (s : State) (ctx : Context) (text : str)
    (outcome : option str) : State * list event :=
  let prompt := lit "Summarize this text in a concise manner: " ++ text in
  let mood := current_mood s (author_id ctx) in
  let '(response, asked) :=
    ask_llm outcome prompt mood (deref (heap s) DEFAULT_CONVERSATION) in
  (s, asked ++ chunked_send (lit "Summary: " ++ response)).

(** ** The timer task (lines 142-148) *)

(** One iteration of the loop body for [user_id]; [now user_id] is the
    value [datetime.now()] has when that key is examined. *)
Definition reset_mood_step (now : Z → Z) (st : gmap Z str * gmap Z Z)
    (user_id : Z) : gmap Z str * gmap Z Z :=
  match st.2 !! user_id with
  | Some timer =>
      if now user_id >? timer
      then (delete user_id st.1, delete user_id st.2)
      else st
  | None => st
  end.

(** [reset_mood_task]: the loop runs over [list(mood_timers)], the keys
    present when the tick starts. *)
Definition reset_mood_task (now : Z → Z) (s : State) : State :=
  let keys := (map_to_list (mood_timers s)).*1 in
  let st := foldl (reset_mood_step now) (user_moods s, mood_timers s) keys in
  mkState st.1 st.2 (conversation_state s) (story_state s) (heap s).

(** ** Runs of the bot *)

Inductive request :=
  | Ask (ctx : Context) (question : str) (outcome : option str)
  | SetMood (ctx : Context) (mood : str) (now : Z)
  | Story (ctx : Context) (addition : option str)
  | Trivia (ctx : Context) (outcome : option str)
  | Summarize (ctx : Context) (text : str) (outcome : option str).

Inductive action :=
  | Command (r : request)
  | Tick (now : Z → Z).

Definition handle (r : request) (s : State) : State * list event :=
  match r with
  | Ask ctx question outcome => ask_with_mood s ctx question outcome
  | SetMood ctx mood now => set_mood s ctx mood now
  | Story ctx addition => story s ctx addition
  | Trivia ctx outcome => trivia s ctx outcome
  | Summarize ctx text outcome => summarize s ctx text outcome
  end.

Definition exec (a : action) (s : State) : State :=
  match a with
  | Command r => (handle r s).1
  | Tick now => reset_mood_task now s
  end.

(** The state after the actions of [acts], taken in order. *)
Definition run (acts : list action) (s : State) : State :=
  foldl (λ s a, exec a s) s acts.

(** ** Views of the stores *)

(** The contents of the list a store binds to [key]; empty for a key the
    store has not seen. *)
Definition ledger (d : gmap Z loc) (h : list (list str)) (key : Z) : list str :=
  match d !! key with
  | Some l => deref h l
  | None => []
  end.

(** The conversation ledger of [user_id]. *)
Definition conversation_of (s : State) (user_id : Z) : list str :=
  ledger (conversation_state s) (heap s) user_id.

(** The story ledger of [channel]. *)
Definition story_of (s : State) (channel : Z) : list str :=
  ledger (story_state s) (heap s) channel.

(** The texts handed to [ctx.send], and the prompts handed to the model. *)
Definition sent (evs : list event) : list str :=
  omap (λ e, match e with Send text => Some text | Query _ => None end) evs.

Definition prompts (evs : list event) : list str :=
  mjoin (omap (λ e, match e with
                    | Query messages => Some (content <$> filter (λ m, role m = lit "user") messages)
                    | Send _ => None
                    end) evs).

Definition alice : Context := mkContext 1 (lit "Alice") 10.
Definition bob : Context := mkContext 2 (lit "Bob") 20.

(** ** Well-formed stores *)

(** Every reference a store holds points to a list object of the heap,
    and never to the default argument of [ask_llm]. *)
Definition valid (d : gmap Z loc) (h : list (list str)) : Prop :=
  ∀ k l, d !! k = Some l → (DEFAULT_CONVERSATION < l < length h)%nat.

(** No two keys of a store are bound to the same list object. *)
Definition unshared (d : gmap Z loc) : Prop :=
  ∀ k1 k2 l, d !! k1 = Some l → d !! k2 = Some l → k1 = k2.

(** No list object is bound in both stores. *)
Definition apart (d e : gmap Z loc) : Prop :=
  ∀ k1 k2 l, d !! k1 = Some l → e !! k2 = Some l → False.

Record wf (s : State) : Prop := mkWf {
  heap_nonempty : (0 < length (heap s))%nat;
  default_empty : deref (heap s) DEFAULT_CONVERSATION = [];
  conv_valid : valid (conversation_state s) (heap s);
  story_valid : valid (story_state s) (heap s);
  conv_unshared : unshared (conversation_state s);
  story_unshared : unshared (story_state s);
  conv_story_apart : apart (conversation_state s) (story_state s)
}.

(** Splits the two cases of [getitem_cases], substituting the results. *)
Ltac getitem_inv H :=
  let E := fresh "E" in
  let Hl := fresh "Hl" in
  destruct H as [(E & -> & -> & Hl)|(E & -> & -> & ->)].

(** ** Notions used to state the properties *)

(** The conversation [ask_llm] receives: the ledger with the question
    appended, after the truncation loop. *)
Definition with_question (question : str) (conversation : list str) : list str :=
  (truncate (conversation ++ [lit "User: " ++ question])).2.

(** The ledger [ask_with_mood] leaves behind. *)
Definition after_ask (question : str) (outcome : option str)
    (conversation : list str) : list str :=
  with_question question conversation ++ [lit "Bot: " ++ reply outcome].

(** The line [story] appends, if any. *)
Definition after_story (ctx : Context) (addition : option str)
    (story : list str) : list str :=
  match truthy addition with
  | Some addition => story ++ [author_name ctx ++ lit ": " ++ addition]
  | None => story
  end.

(** [n] one-letter words separated by single spaces. *)
Definition words (n : nat) : str := join (lit " ") (replicate n (lit "w")).

(** A question of 990 words, 1979 characters long. *)
Definition long_question : str := words 990.

(** The timer of [user_id] lies strictly before the clock reading taken
    for it. *)
Definition due (now : Z → Z) (timers : gmap Z Z) (user_id : Z) : bool :=
  match timers !! user_id with
  | Some timer => now user_id >? timer
  | None => false
  end.

(** What [current_mood] reads after an action, for every user: the mood
    just set by that user's own [set_mood]; the default once the timer task
    has deleted the entry; what it read before, in every other case. *)
Definition mood_after (a : action) (s : State) (user_id : Z) : str :=
  match a with
  | Command (SetMood ctx mood _) =>
      if decide (user_id = author_id ctx) then mood else current_mood s user_id
  | Tick now =>
      if due now (mood_timers s) user_id then FRIENDLY else current_mood s user_id
  | Command _ => current_mood s user_id
  end.

(** One hour and one minute, in microseconds. *)
Definition MINUTES_61 : Z := 61 * 60 * 1000000.

(** The line an action contributes to the story of [channel]: only a
    [story] command on that channel with a non-empty addition has one. *)
Definition contribution (channel : Z) (a : action) : list str :=
  match a with
  | Command (Story ctx addition) =>
      if decide (channel_id ctx = channel)
      then match truthy addition with
           | Some text => [author_name ctx ++ lit ": " ++ text]
           | None => []
           end
      else []
  | _ => []
  end.

(** The contributions made to [channel] during [acts], in order. *)
Definition contributions (channel : Z) (acts : list action) : list str :=
  acts ≫= contribution channel.

(** The user a request reads or writes per-user state for, and the
    channel whose story it reads or writes. *)
Definition request_user (r : request) : option Z :=
  match r with
  | Ask ctx _ _ | SetMood ctx _ _ | Trivia ctx _ | Summarize ctx _ _ =>
      Some (author_id ctx)
  | Story _ _ => None
  end.

Definition request_channel (r : request) : option Z :=
  match r with
  | Story ctx _ => Some (channel_id ctx)
  | _ => None
  end.

(** ** The model catalogue (lines 45, 57-68 and 98-134) *)

Definition DEFAULT_MODEL : str := lit "anthropic.claude-3-5-sonnet-20240620-v1:0".

(** [text.startswith(prefix)] *)
Fixpoint startswith (prefix text : str) : bool :=
  match prefix, text with
  | [], _ => true
  | _ :: _, [] => false
  | p :: prefix', c :: text' => (p =? c)%N && startswith prefix' text'
  end.

(** The two clients [get_llm] builds. *)
Inductive llm_client :=
  | ChatBedrock (model_id : str)
  | BedrockLLM (model_id : str).

(** [get_llm], lines 57-68. *)
Definition get_llm (model_id : str) : llm_client :=
  if startswith (lit "anthropic.") model_id then ChatBedrock model_id
  else BedrockLLM model_id.

(** [needle in text] on strings. *)
Fixpoint contains (needle text : str) : bool :=
  startswith needle text
  || match text with
     | [] => false
     | _ :: text' => contains needle text'
     end.

(** An entry of [modelSummaries] with the three fields [models] reads. *)
Record model_summary := ModelSummary {
  modelName : str;
  modelId : str;
  providerName : str
}.

(** The line [models] prints for one entry (lines 121 and 129). *)
Definition model_line (model : model_summary) : str :=
  lit "**" ++ modelName model ++ lit " (" ++ modelId model ++ lit ")** - "
  ++ providerName model.

(** The test of line 126. *)
Definition model_matches (lower : str → str) (query : str) (model : model_summary) : bool :=
  contains query (lower (providerName model))
  || contains query (lower (modelName model))
  || contains query (lower (modelId model)).

Definition MODELS_HINT : str :=
  NL ++ NL ++ lit "To see all models, type `!models all` or filter by provider/model, e.g., `!models anthropic`.".

(** [models], lines 109-134. [catalogue] is what [load_models()] returned
    (the empty list when the file could not be read), [lower] is
    [str.lower]. *)
Definition models (lower : str → str) (catalogue : list model_summary)
    (args : list str) : list event :=
  match catalogue with
  | [] => [Send (lit "No models available. Please check the models.json file.")]
  | _ :: _ =>
      let response :=
        match args with
        | [] => join NL (model_line <$> take 5 catalogue) ++ MODELS_HINT
        | _ :: _ =>
            let query := lower (join (lit " ") args) in
            let filtered := filter (λ model, model_matches lower query model = true) catalogue in
            match filtered with
            | _ :: _ => join NL (model_line <$> filtered)
            | [] => lit "No models found matching `" ++ query
                    ++ lit "`. Try using a provider or model name."
            end
        end in
      chunked_send response
  end.

(** ** Further notions used to state properties *)

(** A turn of a conversation ledger, as [ask_with_mood] writes it. *)
Definition tagged (msg : str) : Prop :=
  (∃ question, msg = lit "User: " ++ question)
  ∨ (∃ response, msg = lit "Bot: " ++ response).

(** The conversation ledger of [user_id] after an action: only a question
    of that user changes it. *)
Definition conversation_after (a : action) (s : State) (user_id : Z) : list str :=
  match a with
  | Command (Ask ctx question outcome) =>
      if decide (user_id = author_id ctx)
      then after_ask question outcome (conversation_of s user_id)
      else conversation_of s user_id
  | _ => conversation_of s user_id
  end.

(** [a] is a question of [user_id]; [a] is a story command, a read or a
    contribution, on [channel]. *)
Definition asks (user_id : Z) (a : action) : bool :=
  match a with
  | Command (Ask ctx _ _) => bool_decide (author_id ctx = user_id)
  | _ => false
  end.

Definition tells (channel : Z) (a : action) : bool :=
  match a with
  | Command (Story ctx _) => bool_decide (channel_id ctx = channel)
  | _ => false
  end.

(** The ledger of [user_id] rebuilt from that user's questions alone. *)
Definition replay (user_id : Z) (acts : list action) : list str :=
  foldl (λ ledger a,
           match a with
           | Command (Ask ctx question outcome) =>
               if decide (user_id = author_id ctx)
               then after_ask question outcome ledger
               else ledger
           | _ => ledger
           end) [] acts.

(** The whole text a list of events sends, chunk after chunk. *)
Definition sent_text (evs : list event) : str := mjoin (sent evs).

(** * Properties *)

(** ** The model on small inputs *)

Example count_tokens_ex1 :
  count_tokens (lit "  User:   what is	up ") = 4.
Proof. reflexivity. Qed.

Example strip_ex1 : strip (lit "  a b  ") = lit "a b".
Proof. reflexivity. Qed.

Example join_ex1 : join NL [lit "a"; lit "b"] = lit "a" ++ NL ++ lit "b".
Proof. reflexivity. Qed.

Example ask_hello_ex :
  conversation_of (ask_with_mood initial alice (lit "hello") (Some (lit " Hi there! "))).1 1
  = [lit "User: hello"; lit "Bot: Hi there!"].
Proof. vm_compute. reflexivity. Qed.

Example story_ex :
  sent (story (story initial alice (Some (lit "Once"))).1 alice None).2
  = [STORY_READ_PREFIX ++ lit "Alice: Once"].
Proof. vm_compute. reflexivity. Qed.

(** ** Lemmas on the heap and on [getitem] *)

Lemma deref_alter_eq f h l :
  (l < length h)%nat → deref (alter f l h) l = f (deref h l).
Proof.
  intros Hl. unfold deref. rewrite list_lookup_alter_eq.
  destruct (lookup_lt_is_Some_2 h l Hl) as [v ->]. reflexivity.
Qed.

Lemma deref_alter_ne f h l l' :
  l ≠ l' → deref (alter f l h) l' = deref h l'.
Proof. intros Hne. unfold deref. by rewrite list_lookup_alter_ne. Qed.

Lemma deref_app_l (h : list (list str)) v l :
  (l < length h)%nat → deref (h ++ [v]) l = deref h l.
Proof. intros Hl. unfold deref. by rewrite lookup_app_l. Qed.

Lemma deref_app_new (h : list (list str)) v :
  deref (h ++ [v]) (length h) = v.
Proof. unfold deref. by rewrite list_lookup_middle. Qed.

Lemma getitem_cases d h key l d' h' :
  valid d h → getitem d h key = (l, d', h') →
  (d !! key = Some l ∧ d' = d ∧ h' = h ∧ (0 < l < length h)%nat)
  ∨ (d !! key = None ∧ d' = <[key := l]> d ∧ h' = h ++ [[]] ∧ l = length h).
Proof.
  intros Hvalid. unfold getitem. destruct (d !! key) as [l0|] eqn:E.
  - intros [= <- <- <-]. left.
    pose proof (Hvalid _ _ E) as Hv. unfold DEFAULT_CONVERSATION in Hv.
    split_and!; try done; lia.
  - intros [= <- <- <-]. right. done.
Qed.

Lemma getitem_deref d h key l d' h' :
  valid d h → getitem d h key = (l, d', h') → deref h' l = ledger d h key.
Proof.
  intros Hvalid Hget. unfold ledger. getitem_inv (getitem_cases _ _ _ _ _ _ Hvalid Hget).
  - by rewrite E.
  - by rewrite E, deref_app_new.
Qed.

Section Getitem.
Context (f : list str → list str).

Lemma getitem_lookup d h key l d' h' :
  valid d h → getitem d h key = (l, d', h') → d' !! key = Some l.
Proof.
  intros Hvalid Hget. getitem_inv (getitem_cases _ _ _ _ _ _ Hvalid Hget); [done|].
  apply lookup_insert_eq.
Qed.

Lemma getitem_bound d h key l d' h' :
  valid d h → getitem d h key = (l, d', h') → (l < length h')%nat.
Proof.
  intros Hvalid Hget. getitem_inv (getitem_cases _ _ _ _ _ _ Hvalid Hget); [lia|].
  rewrite length_app. simpl. lia.
Qed.

(** The list bound to [key] is changed by [f]. *)
Lemma getitem_ledger_eq d h key l d' h' :
  valid d h → getitem d h key = (l, d', h') →
  ledger d' (alter f l h') key = f (ledger d h key).
Proof.
  intros Hvalid Hget. unfold ledger.
  rewrite (getitem_lookup _ _ _ _ _ _ Hvalid Hget).
  rewrite deref_alter_eq by apply (getitem_bound _ _ _ _ _ _ Hvalid Hget).
  getitem_inv (getitem_cases _ _ _ _ _ _ Hvalid Hget).
  - by rewrite E.
  - by rewrite E, deref_app_new.
Qed.

(** The lists of the other keys of the same store are not. *)
Lemma getitem_ledger_ne d h key l d' h' key' :
  valid d h → getitem d h key = (l, d', h') →
  unshared d → key' ≠ key →
  ledger d' (alter f l h') key' = ledger d h key'.
Proof.
  intros Hvalid Hget Hun Hne. unfold ledger.
  getitem_inv (getitem_cases _ _ _ _ _ _ Hvalid Hget).
  - destruct (d !! key') as [l'|] eqn:E'; [|done].
    apply deref_alter_ne. intros ->. apply Hne. by apply (Hun key' key l').
  - rewrite lookup_insert_ne by done.
    destruct (d !! key') as [l'|] eqn:E'; [|done].
    pose proof (Hvalid _ _ E') as Hl'.
    rewrite deref_alter_ne by lia. apply deref_app_l. lia.
Qed.

(** Nor are the lists of another store. *)
Lemma getitem_ledger_other d h key l d' h' e key' :
  valid d h → getitem d h key = (l, d', h') →
  valid e h → apart d e →
  ledger e (alter f l h') key' = ledger e h key'.
Proof.
  intros Hvalid Hget He Hap. unfold ledger.
  destruct (e !! key') as [l'|] eqn:E'; [|done].
  pose proof (He _ _ E') as Hl'.
  getitem_inv (getitem_cases _ _ _ _ _ _ Hvalid Hget).
  - apply deref_alter_ne. intros ->. by apply (Hap key key' l').
  - rewrite deref_alter_ne by lia. apply deref_app_l. lia.
Qed.

Lemma getitem_default d h key l d' h' :
  valid d h → getitem d h key = (l, d', h') →
  (0 < length h)%nat →
  deref (alter f l h') DEFAULT_CONVERSATION = deref h DEFAULT_CONVERSATION.
Proof.
  intros Hvalid Hget Hh. unfold DEFAULT_CONVERSATION.
  getitem_inv (getitem_cases _ _ _ _ _ _ Hvalid Hget).
  - apply deref_alter_ne. lia.
  - rewrite deref_alter_ne by lia. by apply deref_app_l.
Qed.

Lemma getitem_valid d h key l d' h' :
  valid d h → getitem d h key = (l, d', h') →
  (0 < length h)%nat → valid d' (alter f l h').
Proof.
  intros Hvalid Hget Hh k l0 E0. rewrite length_alter.
  unfold DEFAULT_CONVERSATION.
  getitem_inv (getitem_cases _ _ _ _ _ _ Hvalid Hget).
  - by apply (Hvalid k).
  - rewrite length_app. simpl.
    destruct (decide (k = key)) as [->|Hne].
    + rewrite lookup_insert_eq in E0. injection E0 as <-. lia.
    + rewrite lookup_insert_ne in E0 by done.
      pose proof (Hvalid _ _ E0). unfold DEFAULT_CONVERSATION in *. lia.
Qed.

Lemma getitem_valid_other d h key l d' h' e :
  valid d h → getitem d h key = (l, d', h') →
  valid e h → valid e (alter f l h').
Proof.
  intros Hvalid Hget He k l0 E0. rewrite length_alter.
  pose proof (He _ _ E0).
  getitem_inv (getitem_cases _ _ _ _ _ _ Hvalid Hget); [done|].
  rewrite length_app. simpl. lia.
Qed.

Lemma getitem_unshared d h key l d' h' :
  valid d h → getitem d h key = (l, d', h') →
  unshared d → unshared d'.
Proof.
  intros Hvalid Hget Hun.
  getitem_inv (getitem_cases _ _ _ _ _ _ Hvalid Hget); [done|].
  intros k1 k2 l0 E1 E2.
  destruct (decide (k1 = key)) as [->|H1], (decide (k2 = key)) as [->|H2];
    [done| | |].
  - rewrite lookup_insert_eq in E1. injection E1 as <-.
    rewrite lookup_insert_ne in E2 by done.
    pose proof (Hvalid _ _ E2). lia.
  - rewrite lookup_insert_eq in E2. injection E2 as <-.
    rewrite lookup_insert_ne in E1 by done.
    pose proof (Hvalid _ _ E1). lia.
  - rewrite lookup_insert_ne in E1, E2 by done. by apply (Hun k1 k2 l0).
Qed.

Lemma getitem_apart d h key l d' h' e :
  valid d h → getitem d h key = (l, d', h') →
  valid e h → apart d e → apart d' e.
Proof.
  intros Hvalid Hget He Hap.
  getitem_inv (getitem_cases _ _ _ _ _ _ Hvalid Hget); [done|].
  intros k1 k2 l0 E1 E2.
  destruct (decide (k1 = key)) as [->|H1].
  - rewrite lookup_insert_eq in E1. injection E1 as <-.
    pose proof (He _ _ E2). lia.
  - rewrite lookup_insert_ne in E1 by done. by apply (Hap k1 k2 l0).
Qed.
End Getitem.

(** ** The handlers in terms of [getitem] and one [alter] *)

Lemma insert_deref (t : list str → list str) h l :
  <[l := t (deref h l)]> h = alter t l h.
Proof.
  rewrite list_insert_alter. apply list_alter_ext; [|done].
  intros x Hx. unfold deref. by rewrite Hx.
Qed.

Lemma ask_heap h l question outcome :
  list_append
    (<[l := (truncate (deref (list_append h l (lit "User: " ++ question)) l)).2]>
       (list_append h l (lit "User: " ++ question)))
    l (lit "Bot: " ++ reply outcome)
  = alter (after_ask question outcome) l h.
Proof.
  rewrite (insert_deref (λ v, (truncate v).2)). unfold list_append.
  by rewrite !list_alter_alter_eq.
Qed.

Lemma ask_heap_seen h l question :
  (l < length h)%nat →
  deref (<[l := (truncate (deref (list_append h l (lit "User: " ++ question)) l)).2]>
           (list_append h l (lit "User: " ++ question))) l
  = with_question question (deref h l).
Proof.
  intros Hl. rewrite (insert_deref (λ v, (truncate v).2)). unfold list_append.
  rewrite list_alter_alter_eq. by rewrite deref_alter_eq.
Qed.

Lemma ask_with_mood_state s ctx question outcome l cs h :
  valid (conversation_state s) (heap s) →
  getitem (conversation_state s) (heap s) (author_id ctx) = (l, cs, h) →
  (ask_with_mood s ctx question outcome).1
  = mkState (user_moods s) (mood_timers s) cs (story_state s)
            (alter (after_ask question outcome) l h).
Proof.
  intros Hv Hget. unfold ask_with_mood, ask_llm. rewrite Hget. cbn [fst snd].
  rewrite ask_heap.
  by rewrite (insert_id cs) by apply (getitem_lookup _ _ _ _ _ _ Hv Hget).
Qed.

Lemma ask_with_mood_events s ctx question outcome :
  valid (conversation_state s) (heap s) →
  (ask_with_mood s ctx question outcome).2
  = Query (chat_messages
             (build_prompt question (current_mood s (author_id ctx))
                (with_question question (conversation_of s (author_id ctx)))))
    :: chunked_send (reply outcome).
Proof.
  intros Hv. unfold ask_with_mood, ask_llm.
  destruct (getitem _ _ _) as [[l cs] h] eqn:Hget. cbn [fst snd app].
  rewrite ask_heap_seen by apply (getitem_bound _ _ _ _ _ _ Hv Hget).
  by rewrite (getitem_deref _ _ _ _ _ _ Hv Hget).
Qed.

Lemma story_state_eq s ctx addition l ss h :
  getitem (story_state s) (heap s) (channel_id ctx) = (l, ss, h) →
  (story s ctx addition).1
  = mkState (user_moods s) (mood_timers s) (conversation_state s) ss
            (alter (after_story ctx addition) l h).
Proof.
  intros Hget. unfold story, after_story. rewrite Hget.
  destruct (truthy addition) as [a|]; simpl; [done|].
  by rewrite list_alter_id.
Qed.

(** ** Well-formedness is an invariant of every run *)

Lemma valid_sym_apart d e : apart d e → apart e d.
Proof. intros H k1 k2 l E1 E2. by apply (H k2 k1 l). Qed.

Lemma wf_initial : wf initial.
Proof.
  split; simpl; try done; try lia; intros ???; by rewrite ?lookup_empty.
Qed.

Lemma wf_ask_with_mood s ctx question outcome :
  wf s → wf (ask_with_mood s ctx question outcome).1.
Proof.
  intros [Hh Hd Hc Hs Hcu Hsu Hap].
  destruct (getitem (conversation_state s) (heap s) (author_id ctx))
    as [[l cs] h] eqn:Hget.
  rewrite (ask_with_mood_state _ _ _ _ _ _ _ Hc Hget).
  split; simpl.
  - rewrite length_alter. pose proof (getitem_bound _ _ _ _ _ _ Hc Hget). lia.
  - by rewrite (getitem_default _ _ _ _ _ _ _ Hc Hget Hh).
  - by apply (getitem_valid _ _ _ _ _ _ _ Hc Hget).
  - by apply (getitem_valid_other _ _ _ _ _ _ _ _ Hc Hget).
  - by apply (getitem_unshared _ _ _ _ _ _ Hc Hget).
  - done.
  - by apply (getitem_apart _ _ _ _ _ _ _ Hc Hget).
Qed.

Lemma wf_story s ctx addition : wf s → wf (story s ctx addition).1.
Proof.
  intros [Hh Hd Hc Hs Hcu Hsu Hap].
  destruct (getitem (story_state s) (heap s) (channel_id ctx))
    as [[l ss] h] eqn:Hget.
  rewrite (story_state_eq _ _ _ _ _ _ Hget).
  split; simpl.
  - rewrite length_alter. pose proof (getitem_bound _ _ _ _ _ _ Hs Hget). lia.
  - by rewrite (getitem_default _ _ _ _ _ _ _ Hs Hget Hh).
  - by apply (getitem_valid_other _ _ _ _ _ _ _ _ Hs Hget).
  - by apply (getitem_valid _ _ _ _ _ _ _ Hs Hget).
  - done.
  - by apply (getitem_unshared _ _ _ _ _ _ Hs Hget).
  - apply valid_sym_apart.
    apply (getitem_apart _ _ _ _ _ _ _ Hs Hget); [done|].
    by apply valid_sym_apart.
Qed.

Lemma wf_set_mood s ctx mood now : wf s → wf (set_mood s ctx mood now).1.
Proof. by intros []. Qed.

Lemma wf_reset_mood_task now s : wf s → wf (reset_mood_task now s).
Proof. by intros []. Qed.

Lemma trivia_state s ctx outcome : (trivia s ctx outcome).1 = s.
Proof. reflexivity. Qed.

Lemma summarize_state s ctx text outcome : (summarize s ctx text outcome).1 = s.
Proof. reflexivity. Qed.

Lemma wf_handle r s : wf s → wf (handle r s).1.
Proof.
  intros Hs. destruct r; cbn [handle].
  - by apply wf_ask_with_mood.
  - by apply wf_set_mood.
  - by apply wf_story.
  - by rewrite trivia_state.
  - by rewrite summarize_state.
Qed.

Lemma wf_exec a s : wf s → wf (exec a s).
Proof. destruct a; simpl; auto using wf_handle, wf_reset_mood_task. Qed.

Lemma wf_run acts s : wf s → wf (run acts s).
Proof.
  revert s. induction acts as [|a acts IH]; intros s Hs; simpl; [done|].
  apply IH. by apply wf_exec.
Qed.

Lemma run_snoc acts a s : run (acts ++ [a]) s = exec a (run acts s).
Proof. unfold run. by rewrite foldl_snoc. Qed.

(** ** What each handler does to the ledgers *)

Lemma ask_conversation_eq s ctx question outcome :
  wf s →
  conversation_of (ask_with_mood s ctx question outcome).1 (author_id ctx)
  = after_ask question outcome (conversation_of s (author_id ctx)).
Proof.
  intros [Hh Hd Hc Hs Hcu Hsu Hap].
  destruct (getitem (conversation_state s) (heap s) (author_id ctx))
    as [[l cs] h] eqn:Hget.
  rewrite (ask_with_mood_state _ _ _ _ _ _ _ Hc Hget).
  by apply (getitem_ledger_eq _ _ _ _ _ _ _ Hc Hget).
Qed.

Lemma ask_conversation_ne s ctx question outcome user_id :
  wf s → user_id ≠ author_id ctx →
  conversation_of (ask_with_mood s ctx question outcome).1 user_id
  = conversation_of s user_id.
Proof.
  intros [Hh Hd Hc Hs Hcu Hsu Hap] Hne.
  destruct (getitem (conversation_state s) (heap s) (author_id ctx))
    as [[l cs] h] eqn:Hget.
  rewrite (ask_with_mood_state _ _ _ _ _ _ _ Hc Hget).
  by apply (getitem_ledger_ne _ _ _ _ _ _ _ _ Hc Hget).
Qed.

Lemma ask_story s ctx question outcome channel :
  wf s →
  story_of (ask_with_mood s ctx question outcome).1 channel = story_of s channel.
Proof.
  intros [Hh Hd Hc Hs Hcu Hsu Hap].
  destruct (getitem (conversation_state s) (heap s) (author_id ctx))
    as [[l cs] h] eqn:Hget.
  rewrite (ask_with_mood_state _ _ _ _ _ _ _ Hc Hget).
  by apply (getitem_ledger_other _ _ _ _ _ _ _ _ _ Hc Hget).
Qed.

Lemma ask_moods s ctx question outcome :
  user_moods (ask_with_mood s ctx question outcome).1 = user_moods s
  ∧ mood_timers (ask_with_mood s ctx question outcome).1 = mood_timers s.
Proof.
  unfold ask_with_mood, ask_llm.
  by destruct (getitem _ _ _) as [[l cs] h].
Qed.

Lemma story_story_eq s ctx addition :
  wf s →
  story_of (story s ctx addition).1 (channel_id ctx)
  = after_story ctx addition (story_of s (channel_id ctx)).
Proof.
  intros [Hh Hd Hc Hs Hcu Hsu Hap].
  destruct (getitem (story_state s) (heap s) (channel_id ctx))
    as [[l ss] h] eqn:Hget.
  rewrite (story_state_eq _ _ _ _ _ _ Hget).
  by apply (getitem_ledger_eq _ _ _ _ _ _ _ Hs Hget).
Qed.

Lemma story_story_ne s ctx addition channel :
  wf s → channel ≠ channel_id ctx →
  story_of (story s ctx addition).1 channel = story_of s channel.
Proof.
  intros [Hh Hd Hc Hs Hcu Hsu Hap] Hne.
  destruct (getitem (story_state s) (heap s) (channel_id ctx))
    as [[l ss] h] eqn:Hget.
  rewrite (story_state_eq _ _ _ _ _ _ Hget).
  by apply (getitem_ledger_ne _ _ _ _ _ _ _ _ Hs Hget).
Qed.

Lemma story_conversation s ctx addition user_id :
  wf s →
  conversation_of (story s ctx addition).1 user_id = conversation_of s user_id.
Proof.
  intros [Hh Hd Hc Hs Hcu Hsu Hap].
  destruct (getitem (story_state s) (heap s) (channel_id ctx))
    as [[l ss] h] eqn:Hget.
  rewrite (story_state_eq _ _ _ _ _ _ Hget).
  apply (getitem_ledger_other _ _ _ _ _ _ _ _ _ Hs Hget); [done|].
  by apply valid_sym_apart.
Qed.

Lemma story_moods s ctx addition :
  user_moods (story s ctx addition).1 = user_moods s
  ∧ mood_timers (story s ctx addition).1 = mood_timers s.
Proof.
  unfold story. destruct (getitem _ _ _) as [[l ss] h].
  by destruct (truthy addition).
Qed.

(** ** The truncation loop *)

Lemma count_tokens_nonneg text : 0 ≤ count_tokens text.
Proof. unfold count_tokens. lia. Qed.

Lemma total_tokens_nonneg conversation : 0 ≤ total_tokens conversation.
Proof.
  induction conversation as [|msg rest IH]; simpl; [done|].
  pose proof (count_tokens_nonneg msg). lia.
Qed.

Lemma total_tokens_app c1 c2 :
  total_tokens (c1 ++ c2) = total_tokens c1 + total_tokens c2.
Proof. induction c1 as [|msg rest IH]; simpl; lia. Qed.

Lemma truncate_cons msg rest :
  truncate (msg :: rest)
  = if total_tokens (msg :: rest) >? TOKEN_LIMIT
    then (msg :: (truncate rest).1, (truncate rest).2)
    else ([], msg :: rest).
Proof.
  change (truncate (msg :: rest)) with
    (if total_tokens (msg :: rest) >? TOKEN_LIMIT
     then let '(more, kept) := truncate rest in (msg :: more, kept)
     else ([], msg :: rest)).
  by destruct (truncate rest).
Qed.

(** The loop stops within the limit. *)
Lemma truncate_bound conversation :
  total_tokens (truncate conversation).2 ≤ TOKEN_LIMIT.
Proof.
  induction conversation as [|msg rest IH]; [done|].
  rewrite truncate_cons.
  destruct (total_tokens (msg :: rest) >? TOKEN_LIMIT) eqn:E; [done|].
  cbn [snd]. lia.
Qed.

(** A conversation within the limit is left alone. *)
Lemma truncate_within conversation :
  total_tokens conversation ≤ TOKEN_LIMIT → truncate conversation = ([], conversation).
Proof.
  intros H. destruct conversation as [|msg rest]; [done|].
  rewrite truncate_cons.
  destruct (total_tokens (msg :: rest) >? TOKEN_LIMIT) eqn:E; [lia|done].
Qed.

(** What survives the loop with the question appended is empty or still
    ends with the question. *)
Lemma truncate_snoc conversation msg :
  (truncate (conversation ++ [msg])).2 = []
  ∨ ∃ kept, (truncate (conversation ++ [msg])).2 = kept ++ [msg].
Proof.
  induction conversation as [|m rest IH].
  - cbn [app]. rewrite truncate_cons.
    destruct (total_tokens [msg] >? TOKEN_LIMIT); [by left|].
    right. by exists [].
  - rewrite <- app_comm_cons, truncate_cons.
    destruct (total_tokens (m :: rest ++ [msg]) >? TOKEN_LIMIT); [done|].
    right. by exists (m :: rest).
Qed.

(** C5. Trimming only removes turns from the front: the conversation
    before the loop of lines 180-184 is the removed messages, oldest
    first, followed by the conversation after it; the surviving turns are
    a contiguous suffix, in their original order. *)
Theorem truncate_removes_front (conversation : list str) :
  conversation = (truncate conversation).1 ++ (truncate conversation).2
  ∧ (truncate conversation).2 `suffix_of` conversation.
Proof.
  assert (conversation = (truncate conversation).1 ++ (truncate conversation).2)
    as Heq.
  { induction conversation as [|msg rest IH]; [done|].
    rewrite truncate_cons.
    destruct (total_tokens (msg :: rest) >? TOKEN_LIMIT); [|done].
    cbn [fst snd app]. by rewrite <- IH. }
  split; [done|]. by exists (truncate conversation).1.
Qed.

(** ** The size of the conversation ledger *)

Example long_question_size :
  count_tokens long_question = 990 ∧ length long_question = 1979%nat.
Proof. split; vm_compute; reflexivity. Qed.

(** A lone turn above the limit is removed by the loop: the ledger is
    empty when [ask_llm] is called. *)
Example lone_turn_removed : with_question (words 4000) [] = [].
Proof. vm_compute. reflexivity. Qed.

(** C1, as stated, fails. Four questions of 990 words from one user, each
    answered by the fallback text: the fourth question brings the ledger to
    3994 tokens, within the limit, and the fallback reply appended after it
    brings it to 4004 tokens in 8 turns; no truncation follows the reply. *)
Lemma ledger_over_limit_after_reply :
  let ask := Command (Ask alice long_question None) in
  let s := run [ask; ask; ask; ask] initial in
  ¬ (total_tokens (conversation_of s 1) ≤ TOKEN_LIMIT
     ∨ length (conversation_of s 1) = 1%nat).
Proof.
  intros ask s.
  assert (total_tokens (conversation_of s 1) = 4004) as ->
    by (vm_compute; reflexivity).
  assert (length (conversation_of s 1) = 8%nat) as ->
    by (vm_compute; reflexivity).
  unfold TOKEN_LIMIT. lia.
Qed.

(** C1, amended. In every run, when [ask_with_mood] has appended the
    question and run the truncation loop, the ledger is within
    [TOKEN_LIMIT] (it may be empty: the loop also removes a lone turn that
    is above the limit). The reply is appended without a further
    truncation: the ledger the handler leaves is that conversation
    followed by the bot turn, so it is not empty and its size is at most
    [TOKEN_LIMIT] plus the size of the bot turn. *)
Theorem ask_ledger_size (acts : list action) (ctx : Context)
    (question : str) (outcome : option str) :
  let s := run acts initial in
  let seen := with_question question (conversation_of s (author_id ctx)) in
  let left := conversation_of (ask_with_mood s ctx question outcome).1 (author_id ctx) in
  total_tokens seen ≤ TOKEN_LIMIT
  ∧ left = seen ++ [lit "Bot: " ++ reply outcome]
  ∧ left ≠ []
  ∧ total_tokens left ≤ TOKEN_LIMIT + count_tokens (lit "Bot: " ++ reply outcome).
Proof.
  intros s seen left.
  assert (wf s) as Hs by apply wf_run, wf_initial.
  assert (total_tokens seen ≤ TOKEN_LIMIT) as Hseen by apply truncate_bound.
  assert (left = seen ++ [lit "Bot: " ++ reply outcome]) as Hleft
    by apply (ask_conversation_eq _ _ _ _ Hs).
  split_and!; [done|done| |].
  - rewrite Hleft. by destruct seen.
  - rewrite Hleft, total_tokens_app. simpl. lia.
Qed.

(** ** The mood registry *)

Lemma due_delete_eq now timers k : due now (delete k timers) k = false.
Proof. unfold due. by rewrite lookup_delete_eq. Qed.

Lemma due_delete_ne now timers k k' :
  k ≠ k' → due now (delete k timers) k' = due now timers k'.
Proof. intros Hne. unfold due. by rewrite lookup_delete_ne. Qed.

Lemma reset_mood_step_due now st k :
  reset_mood_step now st k
  = if due now st.2 k then (delete k st.1, delete k st.2) else st.
Proof.
  unfold reset_mood_step, due. destruct (st.2 !! k) as [timer|]; [|done].
  by destruct (now k >? timer).
Qed.

(** The loop deletes, from both maps, exactly the keys of [keys] that are
    due. *)
Lemma reset_mood_loop now keys st k :
  let st' := foldl (reset_mood_step now) st keys in
  let gone := bool_decide (k ∈ keys) && due now st.2 k in
  st'.1 !! k = (if gone then None else st.1 !! k)
  ∧ st'.2 !! k = (if gone then None else st.2 !! k).
Proof.
  revert st. induction keys as [|a keys IH]; intros st; [done|].
  cbn [foldl]. cbv zeta in *. specialize (IH (reset_mood_step now st a)).
  rewrite reset_mood_step_due in IH. destruct IH as [IH1 IH2].
  rewrite reset_mood_step_due, IH1, IH2.
  destruct (decide (k = a)) as [->|Hne].
  - rewrite (bool_decide_eq_true_2 (a ∈ a :: keys)) by left. cbn [andb].
    destruct (due now st.2 a) eqn:Ha; cbn [fst snd].
    + rewrite due_delete_eq, andb_false_r, !lookup_delete_eq. done.
    + by rewrite Ha, andb_false_r.
  - assert (bool_decide (k ∈ a :: keys) = bool_decide (k ∈ keys)) as ->.
    { apply bool_decide_ext. rewrite elem_of_cons.
      split; [by intros [?|?]|by right]. }
    destruct (due now st.2 a) eqn:Ha; cbn [fst snd]; [|done].
    rewrite due_delete_ne, !lookup_delete_ne by done. done.
Qed.

Lemma reset_mood_task_lookup now s k :
  user_moods (reset_mood_task now s) !! k
  = (if due now (mood_timers s) k then None else user_moods s !! k)
  ∧ mood_timers (reset_mood_task now s) !! k
  = (if due now (mood_timers s) k then None else mood_timers s !! k).
Proof.
  unfold reset_mood_task. cbn [user_moods mood_timers].
  pose proof (reset_mood_loop now (map_to_list (mood_timers s)).*1
                (user_moods s, mood_timers s) k) as H.
  cbv zeta in H. cbn [fst snd] in H.
  destruct (due now (mood_timers s) k) eqn:Hdue.
  - rewrite bool_decide_eq_true_2 in H; [done|].
    unfold due in Hdue. destruct (mood_timers s !! k) as [timer|] eqn:E; [|done].
    apply list_elem_of_fmap. exists (k, timer). split; [done|].
    by apply elem_of_map_to_list.
  - by rewrite andb_false_r in H.
Qed.

(** C2, as stated, fails. A mood set at time 0 has a timer of 60 minutes;
    with no tick of the timer task in between, a question asked at minute 61
    (or at any later time) is still answered in the stored mood: no read of
    [user_moods] looks at [mood_timers] or at the clock. *)
Lemma expired_mood_still_read :
  let s := (set_mood initial alice (lit "sarcastic") 0).1 in
  mood_timers s !! 1 = Some MOOD_DURATION
  ∧ MINUTES_61 > MOOD_DURATION
  ∧ current_mood s 1 = lit "sarcastic"
  ∧ current_mood s 1 ≠ FRIENDLY
  ∧ prompts (ask_with_mood s alice (lit "hello") None).2
    = [lit "Respond in a sarcastic tone." ++ NL ++ lit "User: hello" ++ NL
       ++ lit "User: hello"].
Proof.
  split_and!; try (vm_compute; reflexivity).
  vm_compute. discriminate.
Qed.

(** C2, amended. [current_mood] reads the default label in the initial
    state, where no mood was set. [set_mood] stores the label with a timer
    60 minutes ahead. After any action the label read for a user is given
    by [mood_after]: the stored label stays in force, whatever time has
    passed, until a tick of the timer task finds the user's timer strictly
    before its clock reading and deletes the entry; from then on the
    default is read. *)
Theorem mood_lookup :
  (∀ user_id, current_mood initial user_id = FRIENDLY)
  ∧ (∀ s ctx mood now,
       mood_timers (set_mood s ctx mood now).1 !! author_id ctx
       = Some (now + MOOD_DURATION))
  ∧ (∀ a s user_id, current_mood (exec a s) user_id = mood_after a s user_id).
Proof.
  split_and!.
  - done.
  - intros. cbn. apply lookup_insert_eq.
  - intros [r|now] s user_id; cbn [exec mood_after].
    + destruct r as [ctx q o|ctx mood now|ctx add|ctx o|ctx text o]; cbn [handle].
      * unfold current_mood.
        by rewrite (proj1 (ask_moods s ctx q o)).
      * unfold current_mood. cbn.
        destruct (decide (user_id = author_id ctx)) as [->|Hne].
        -- by rewrite lookup_insert_eq.
        -- by rewrite lookup_insert_ne.
      * unfold current_mood.
        by rewrite (proj1 (story_moods s ctx add)).
      * by rewrite trivia_state.
      * by rewrite summarize_state.
    + unfold current_mood.
      rewrite (proj1 (reset_mood_task_lookup now s user_id)).
      by destruct (due now (mood_timers s) user_id).
Qed.

(** ** What the handlers send and ask *)

Lemma prompts_query prompt evs :
  prompts (Query (chat_messages prompt) :: evs) = prompt :: prompts evs.
Proof. reflexivity. Qed.

Lemma sent_query messages evs : sent (Query messages :: evs) = sent evs.
Proof. reflexivity. Qed.

Lemma prompts_chunked_send text : prompts (chunked_send text) = [].
Proof.
  unfold chunked_send. induction (range_step (length text) 2000); [done|].
  by rewrite fmap_cons.
Qed.

(** The prompt of a question: the mood read by [current_mood], and the
    conversation as it stands after the question was appended to it. *)
Lemma ask_prompt s ctx question outcome :
  wf s →
  prompts (ask_with_mood s ctx question outcome).2
  = [build_prompt question (current_mood s (author_id ctx))
       (with_question question (conversation_of s (author_id ctx)))].
Proof.
  intros Hs. rewrite ask_with_mood_events by apply Hs.
  by rewrite prompts_query, prompts_chunked_send.
Qed.

(** Unless the loop removed it, the question is the last turn of the
    conversation handed to [ask_llm], which adds it once more. *)
Lemma ask_prompt_repeats s ctx question outcome :
  wf s →
  with_question question (conversation_of s (author_id ctx)) ≠ [] →
  ∃ kept,
    prompts (ask_with_mood s ctx question outcome).2
    = [lit "Respond in a " ++ current_mood s (author_id ctx) ++ lit " tone." ++ NL
       ++ join NL (kept ++ [lit "User: " ++ question])
       ++ NL ++ lit "User: " ++ question].
Proof.
  intros Hs Hne. rewrite ask_prompt by done.
  destruct (truncate_snoc (conversation_of s (author_id ctx))
              (lit "User: " ++ question)) as [Hnil|[kept Hkept]]; [done|].
  exists kept. unfold with_question. rewrite Hkept. reflexivity.
Qed.

(** C3. In every run, when the model call of a question fails, the one
    text sent to the user is the fallback text, and the user's ledger ends
    with the bot turn that holds the same text. *)
Theorem ask_failure_fallback (acts : list action) (ctx : Context) (question : str) :
  let s := run acts initial in
  let r := ask_with_mood s ctx question None in
  sent r.2 = [FALLBACK]
  ∧ last (conversation_of r.1 (author_id ctx)) = Some (lit "Bot: " ++ FALLBACK).
Proof.
  intros s r. assert (wf s) as Hs by apply wf_run, wf_initial.
  split.
  - unfold r. rewrite ask_with_mood_events by apply Hs.
    rewrite sent_query. vm_compute. reflexivity.
  - unfold r. rewrite ask_conversation_eq by done.
    unfold after_ask. by rewrite last_snoc.
Qed.

(** C4. On the first question ["hello"] of a user, answered ["Hi"], the
    one prompt handed to the model renders the question twice: once as the
    last turn of the conversation, which [ask_with_mood] has extended with
    it, and once more as the new input that [ask_llm] adds. *)
Theorem ask_hello_prompt :
  prompts (ask_with_mood initial alice (lit "hello") (Some (lit "Hi"))).2
  = [lit "Respond in a friendly tone." ++ NL
     ++ lit "User: hello" ++ NL
     ++ lit "User: hello"].
Proof. vm_compute. reflexivity. Qed.

(** ** The story ledger *)

Lemma story_of_exec a s channel :
  wf s → story_of (exec a s) channel = story_of s channel ++ contribution channel a.
Proof.
  intros Hs. destruct a as [r|now]; cbn [exec contribution];
    [|by rewrite app_nil_r].
  destruct r as [ctx q o|ctx mood now|ctx add|ctx o|ctx text o]; cbn [handle].
  - by rewrite ask_story, app_nil_r.
  - by rewrite app_nil_r.
  - destruct (decide (channel_id ctx = channel)) as [<-|Hne].
    + rewrite story_story_eq by done. unfold after_story.
      destruct (truthy add); [done|by rewrite app_nil_r].
    + rewrite story_story_ne by done. by rewrite app_nil_r.
  - by rewrite trivia_state, app_nil_r.
  - by rewrite summarize_state, app_nil_r.
Qed.

Lemma story_of_run acts s channel :
  wf s →
  story_of (run acts s) channel = story_of s channel ++ contributions channel acts.
Proof.
  revert s. induction acts as [|a acts IH]; intros s Hs.
  - by rewrite app_nil_r.
  - cbn [run foldl]. fold (run acts (exec a s)).
    rewrite IH by by apply wf_exec.
    rewrite story_of_exec by done.
    unfold contributions. cbn [mbind list_bind]. by rewrite app_assoc.
Qed.

(** C7. The story ledger only grows. In every run, the story of a
    channel is the sequence of the contributions made to it, in insertion
    order, so after N contributions it has N entries; and whatever actions
    follow (questions, mood changes, story reads, trivia, summaries, ticks
    of the timer task, contributions to other channels), the entries
    already present stay in place and only the new contributions to that
    channel are added after them. *)
Theorem story_only_grows (before after : list action) (channel : Z) :
  story_of (run before initial) channel = contributions channel before
  ∧ length (story_of (run before initial) channel)
    = length (contributions channel before)
  ∧ story_of (run (before ++ after) initial) channel
    = story_of (run before initial) channel ++ contributions channel after.
Proof.
  assert (story_of (run before initial) channel = contributions channel before)
    as Heq by apply (story_of_run before initial channel wf_initial).
  split_and!; [done|by rewrite Heq|].
  unfold run at 1. rewrite foldl_app. fold (run before initial).
  apply story_of_run, wf_run, wf_initial.
Qed.

Example story_counts :
  let say who text := Command (Story who (Some text)) in
  let acts := [say alice (lit "Once"); Command (Story alice None);
               say bob (lit "elsewhere"); Command (Ask alice (lit "hi") None);
               say alice (lit "upon a time")] in
  story_of (run acts initial) 10 = [lit "Alice: Once"; lit "Alice: upon a time"].
Proof. vm_compute. reflexivity. Qed.

(** C8. In every run, a story read on a channel that has no contribution
    is answered with the one text ["No story started yet!"], whatever the
    stories of the other channels hold. *)
Theorem story_read_empty (acts : list action) (ctx : Context) :
  story_of (run acts initial) (channel_id ctx) = [] →
  sent (story (run acts initial) ctx None).2 = [NO_STORY].
Proof.
  intros Hempty.
  assert (wf (run acts initial)) as Hs by apply wf_run, wf_initial.
  unfold story.
  destruct (getitem (story_state (run acts initial)) (heap (run acts initial))
              (channel_id ctx)) as [[l ss] h] eqn:Hget.
  cbn [truthy snd].
  rewrite (getitem_deref _ _ _ _ _ _ (story_valid _ Hs) Hget).
  fold (story_of (run acts initial) (channel_id ctx)). rewrite Hempty.
  vm_compute. reflexivity.
Qed.

Lemma story_read_empty_witness :
  sent (story (run [Command (Story bob (Some (lit "Once")))] initial) alice None).2
  = [NO_STORY].
Proof.
  apply (story_read_empty [Command (Story bob (Some (lit "Once")))] alice).
  vm_compute. reflexivity.
Defined.

(** ** Trivia and summaries *)

Lemma one_shot_prompt s outcome question mood tag :
  wf s →
  prompts ((ask_llm outcome question mood (deref (heap s) DEFAULT_CONVERSATION)).2
           ++ chunked_send (tag ++ reply outcome))
  = [build_prompt question mood []].
Proof.
  intros Hs. rewrite (default_empty _ Hs). cbn [ask_llm snd app].
  by rewrite prompts_query, prompts_chunked_send.
Qed.

(** C9. In every run, [trivia] and [summarize] return the state they were
    given, so the user's conversation ledger is unchanged: neither a user
    turn nor a bot turn is appended. Each makes one model call on an empty
    conversation, in the mood that [current_mood] reads for the user, the
    same lookup that the prompt of a question uses. *)
Theorem trivia_summarize_one_shot (acts : list action) (ctx : Context)
    (text question : str) (outcome : option str) :
  let s := run acts initial in
  let user_id := author_id ctx in
  (trivia s ctx outcome).1 = s
  ∧ (summarize s ctx text outcome).1 = s
  ∧ conversation_of (trivia s ctx outcome).1 user_id = conversation_of s user_id
  ∧ conversation_of (summarize s ctx text outcome).1 user_id = conversation_of s user_id
  ∧ prompts (trivia s ctx outcome).2
    = [build_prompt TRIVIA_PROMPT (current_mood s user_id) []]
  ∧ prompts (summarize s ctx text outcome).2
    = [build_prompt (lit "Summarize this text in a concise manner: " ++ text)
         (current_mood s user_id) []]
  ∧ prompts (ask_with_mood s ctx question outcome).2
    = [build_prompt question (current_mood s user_id)
         (with_question question (conversation_of s user_id))].
Proof.
  intros s user_id. assert (wf s) as Hs by apply wf_run, wf_initial.
  split_and!; try reflexivity.
  - by apply (one_shot_prompt s outcome TRIVIA_PROMPT _ (lit "Trivia Time: ")).
  - by apply (one_shot_prompt s outcome _ _ (lit "Summary: ")).
  - by apply ask_prompt.
Qed.

(** ** Separation of users and channels *)

(** C10. In every run, a request leaves every user other than its own
    with the same mood label, mood timer and conversation ledger, and every
    channel other than its own with the same story ledger. Afterwards, as
    before, no two users are bound to the same conversation list, no two
    channels to the same story list, and no list serves both a user and a
    channel. *)
Theorem request_frame (acts : list action) (r : request) (user_id channel : Z) :
  request_user r ≠ Some user_id →
  request_channel r ≠ Some channel →
  let s := run acts initial in
  let s' := (handle r s).1 in
  user_moods s' !! user_id = user_moods s !! user_id
  ∧ mood_timers s' !! user_id = mood_timers s !! user_id
  ∧ conversation_of s' user_id = conversation_of s user_id
  ∧ story_of s' channel = story_of s channel
  ∧ unshared (conversation_state s')
  ∧ unshared (story_state s')
  ∧ apart (conversation_state s') (story_state s').
Proof.
  intros Hu Hc s s'. assert (wf s) as Hs by apply wf_run, wf_initial.
  assert (wf s') as Hs' by by apply wf_handle.
  assert (user_moods s' !! user_id = user_moods s !! user_id
          ∧ mood_timers s' !! user_id = mood_timers s !! user_id
          ∧ conversation_of s' user_id = conversation_of s user_id
          ∧ story_of s' channel = story_of s channel) as H.
  { unfold s'.
    destruct r as [ctx q o|ctx mood now|ctx add|ctx o|ctx text o];
      cbn [handle request_user request_channel] in *.
    - destruct (ask_moods s ctx q o) as [-> ->].
      rewrite ask_conversation_ne, ask_story by congruence. done.
    - cbn. rewrite !lookup_insert_ne by congruence. done.
    - destruct (story_moods s ctx add) as [-> ->].
      rewrite story_conversation, story_story_ne by congruence. done.
    - by rewrite trivia_state.
    - by rewrite summarize_state. }
  destruct H as (? & ? & ? & ?), Hs'. done.
Qed.

Lemma request_frame_witness :
  let acts := [Command (Ask bob (lit "hi") None);
               Command (SetMood bob (lit "formal") 0);
               Command (Story bob (Some (lit "Once")))] in
  let s := run acts initial in
  let s' := (handle (Ask alice (lit "hello") None) s).1 in
  user_moods s' !! 2 = user_moods s !! 2
  ∧ mood_timers s' !! 2 = mood_timers s !! 2
  ∧ conversation_of s' 2 = conversation_of s 2
  ∧ story_of s' 20 = story_of s 20
  ∧ unshared (conversation_state s')
  ∧ unshared (story_state s')
  ∧ apart (conversation_state s') (story_state s').
Proof.
  apply (request_frame
           [Command (Ask bob (lit "hi") None);
            Command (SetMood bob (lit "formal") 0);
            Command (Story bob (Some (lit "Once")))]
           (Ask alice (lit "hello") None) 2 20).
  - simpl. discriminate.
  - simpl. discriminate.
Defined.


(** * Further properties *)

(** ** The token estimate *)

(** A whitespace code point ends the word being read and starts afresh. *)
Lemma split_from_space word a c b :
  isspace c = true →
  split_from word (a ++ c :: b) = split_from word a ++ split b.
Proof.
  intros Hc. revert word. induction a as [|x a IH]; intros word; cbn [app split_from].
  - by rewrite Hc.
  - destruct (isspace x); [|apply IH]. by rewrite IH, app_assoc.
Qed.

Lemma split_from_word word w rest :
  Forall (λ c, isspace c = false) w →
  split_from word (w ++ rest) = split_from (word ++ w) rest.
Proof.
  intros Hw. revert word. induction Hw as [|x w Hx _ IH]; intros word.
  - by rewrite app_nil_r.
  - cbn [app split_from]. rewrite Hx, IH. by rewrite <- app_assoc.
Qed.

Lemma split_from_spaces word ws :
  Forall (λ c, isspace c = true) ws → split_from word ws = flush word.
Proof.
  intros Hws. revert word. induction Hws as [|x ws Hx _ IH]; intros word; [done|].
  cbn [split_from]. rewrite Hx, IH. apply app_nil_r.
Qed.

(** The number of words depends on the word being read only through its
    being empty or not. *)
Lemma split_from_length word1 word2 text :
  word1 ≠ [] → word2 ≠ [] →
  length (split_from word1 text) = length (split_from word2 text).
Proof.
  revert word1 word2. induction text as [|c text IH]; intros word1 word2 H1 H2.
  - by destruct word1, word2.
  - cbn [split_from]. destruct (isspace c).
    + rewrite !length_app. by destruct word1, word2.
    + apply IH; by destruct word1, word2.
Qed.

Lemma split_from_nonempty word text :
  word ≠ [] → (1 ≤ length (split_from word text))%nat.
Proof.
  revert word. induction text as [|c text IH]; intros word Hw.
  - destruct word; [done|]. simpl. lia.
  - cbn [split_from]. destruct (isspace c).
    + rewrite length_app. destruct word; [done|]. simpl. lia.
    + apply IH. by destruct word.
Qed.

Lemma split_from_app_bounds word a b :
  (length (split_from word a) ≤ length (split_from word (a ++ b))
   ∧ length (split_from word (a ++ b)) ≤ length (split_from word a) + length (split b)
   ∧ length (split_from word a) + length (split b) ≤ S (length (split_from word (a ++ b))))%nat.
Proof.
  revert word. induction a as [|x a IH]; intros word; cbn [app split_from].
  - destruct word as [|w word]; cbn [flush length]; [unfold split; lia|].
    pose proof (split_from_nonempty (w :: word) b ltac:(done)).
    assert (length (split b) ≤ length (split_from (w :: word) b)
            ∧ length (split_from (w :: word) b) ≤ S (length (split b)))%nat; [|lia].
    destruct b as [|c b]; [simpl; lia|].
    unfold split. cbn [split_from]. destruct (isspace c).
    + rewrite !length_app. simpl. lia.
    + rewrite (split_from_length ((w :: word) ++ [c]) ([] ++ [c])) by done. lia.
  - destruct (isspace x).
    + rewrite !length_app. specialize (IH []). lia.
    + apply IH.
Qed.

(** X1. [count_tokens] is 0 exactly on the texts made of whitespace only,
    the empty text among them. *)
Theorem count_tokens_zero (text : str) :
  count_tokens text = 0 ↔ Forall (λ c, isspace c = true) text.
Proof.
  unfold count_tokens, split. split.
  - intros H. assert (length (split_from [] text) = 0%nat) as H0 by lia. clear H.
    induction text as [|c text IH]; [done|].
    cbn [split_from] in H0. destruct (isspace c) eqn:Hc.
    + constructor; [done|]. apply IH. by rewrite length_app in H0.
    + pose proof (split_from_nonempty ([] ++ [c]) text ltac:(done)). lia.
  - intros H. by rewrite split_from_spaces.
Qed.

(** X2. Across a whitespace code point the estimate adds up: the words of
    [a ++ c :: b] are the words of [a] followed by the words of [b]. *)
Theorem count_tokens_separated (a b : str) (c : N) :
  isspace c = true →
  split (a ++ c :: b) = split a ++ split b
  ∧ count_tokens (a ++ c :: b) = count_tokens a + count_tokens b.
Proof.
  intros Hc. unfold count_tokens.
  assert (split (a ++ c :: b) = split a ++ split b) as ->
    by by apply split_from_space.
  split; [done|]. rewrite length_app. lia.
Qed.

Lemma count_tokens_separated_witness :
  split (lit "ab" ++ 32%N :: lit "cd") = split (lit "ab") ++ split (lit "cd")
  ∧ count_tokens (lit "ab" ++ 32%N :: lit "cd")
    = count_tokens (lit "ab") + count_tokens (lit "cd").
Proof. apply (count_tokens_separated (lit "ab") (lit "cd") 32%N). reflexivity. Defined.

(** X3. The estimate is monotone in extensions of the text, and
    concatenating two texts merges at most one pair of words. *)
Theorem count_tokens_app (a b : str) :
  count_tokens a ≤ count_tokens (a ++ b)
  ∧ count_tokens (a ++ b) ≤ count_tokens a + count_tokens b
  ∧ count_tokens a + count_tokens b - 1 ≤ count_tokens (a ++ b).
Proof.
  unfold count_tokens, split.
  pose proof (split_from_app_bounds [] a b) as H. unfold split in H. lia.
Qed.

Lemma split_from_words word text :
  Forall (λ c, isspace c = false) word →
  Forall (λ w, w ≠ [] ∧ Forall (λ c, isspace c = false) w) (split_from word text)
  ∧ mjoin (split_from word text) = word ++ filter (λ c, isspace c = false) text.
Proof.
  revert word. induction text as [|c text IH]; intros word Hw.
  - cbn [split_from]. rewrite filter_nil, app_nil_r.
    destruct word as [|x word]; cbn [flush].
    + split; [constructor|done].
    + split; [constructor; [by split|constructor]|]. cbn. by rewrite app_nil_r.
  - cbn [split_from]. destruct (isspace c) eqn:Hc.
    + destruct (IH [] ltac:(done)) as [IH1 IH2].
      rewrite filter_cons_False by by rewrite Hc.
      split.
      * apply Forall_app. split; [|done].
        destruct word as [|x word]; cbn [flush]; constructor; [by split|constructor].
      * rewrite join_app, IH2.
        destruct word as [|x word]; cbn; [done|]. by rewrite app_nil_r.
    + destruct (IH (word ++ [c])) as [IH1 IH2].
      { apply Forall_app. split; [done|]. constructor; [done|constructor]. }
      rewrite filter_cons_True by done. split; [done|].
      by rewrite IH2, <- app_assoc.
Qed.

(** X4. Every word [split] returns is non-empty and free of whitespace,
    and together the words are the text with its whitespace removed. *)
Theorem split_words (text : str) :
  Forall (λ w, w ≠ [] ∧ Forall (λ c, isspace c = false) w) (split text)
  ∧ mjoin (split text) = filter (λ c, isspace c = false) text.
Proof. apply (split_from_words [] text). done. Qed.

Lemma split_join_words ws :
  Forall (λ w, w ≠ [] ∧ Forall (λ c, isspace c = false) w) ws →
  split (join (lit " ") ws) = ws.
Proof.
  induction 1 as [|w ws [Hne Hw] Hws IH]; [done|].
  destruct ws as [|w' ws].
  - cbn [join]. unfold split.
    rewrite <- (app_nil_r w) at 1. rewrite split_from_word by done.
    cbn. by destruct w.
  - change (join (lit " ") (w :: w' :: ws))
      with (w ++ 32%N :: join (lit " ") (w' :: ws)).
    unfold split at 1. rewrite split_from_space by done. rewrite IH.
    unfold split. rewrite <- (app_nil_r w) at 1. rewrite split_from_word by done.
    cbn. by destruct w.
Qed.

(** X5. Joining the words of a text with single spaces and splitting
    again gives the same words: the estimate only sees the words. *)
Theorem split_join_split (text : str) :
  split (join (lit " ") (split text)) = split text
  ∧ count_tokens (join (lit " ") (split text)) = count_tokens text.
Proof.
  assert (split (join (lit " ") (split text)) = split text) as H
    by apply split_join_words, split_words.
  split; [done|]. unfold count_tokens. by rewrite H.
Qed.

(** ** [strip] *)

Lemma lstrip_spec text :
  ∃ ws, Forall (λ c, isspace c = true) ws ∧ text = ws ++ lstrip text.
Proof.
  induction text as [|c text (ws & Hws & IH)]; [by exists []|].
  cbn [lstrip]. destruct (isspace c) eqn:Hc.
  - exists (c :: ws). split; [by constructor|]. cbn. by rewrite <- IH.
  - by exists [].
Qed.

Lemma lstrip_head text : from_option isspace false (head (lstrip text)) = false.
Proof.
  induction text as [|c text IH]; [done|].
  cbn [lstrip]. destruct (isspace c) eqn:Hc; [done|]. by cbn.
Qed.

Lemma lstrip_id text :
  from_option isspace false (head text) = false → lstrip text = text.
Proof. destruct text as [|c text]; [done|]. cbn. by intros ->. Qed.

Lemma split_lstrip text : split (lstrip text) = split text.
Proof.
  induction text as [|c text IH]; [done|].
  cbn [lstrip]. destruct (isspace c) eqn:Hc; [|done].
  rewrite IH. unfold split. cbn [split_from]. by rewrite Hc.
Qed.

Lemma rstrip_spec text :
  ∃ ws, Forall (λ c, isspace c = true) ws ∧ text = rstrip text ++ ws.
Proof.
  destruct (lstrip_spec (reverse text)) as (ws & Hws & H).
  exists (reverse ws). split; [by apply Forall_reverse|].
  unfold rstrip. rewrite <- reverse_app, <- H. by rewrite reverse_involutive.
Qed.

Lemma split_app_spaces a ws :
  Forall (λ c, isspace c = true) ws → split (a ++ ws) = split a.
Proof.
  intros Hws. destruct Hws as [|c ws Hc Hws]; [by rewrite app_nil_r|].
  unfold split. rewrite split_from_space by done.
  unfold split. rewrite (split_from_spaces [] ws) by done. apply app_nil_r.
Qed.

Lemma split_rstrip text : split (rstrip text) = split text.
Proof.
  destruct (rstrip_spec text) as (ws & Hws & H).
  rewrite H at 2. by rewrite split_app_spaces.
Qed.

Lemma rstrip_last text : from_option isspace false (last (rstrip text)) = false.
Proof. unfold rstrip. rewrite last_reverse. apply lstrip_head. Qed.

Lemma rstrip_head text :
  from_option isspace false (head text) = false →
  from_option isspace false (head (rstrip text)) = false.
Proof.
  intros H. destruct (rstrip_spec text) as (ws & Hws & Heq).
  destruct (rstrip text) as [|c r]; [done|].
  rewrite Heq in H. done.
Qed.

Lemma rstrip_id text :
  from_option isspace false (last text) = false → rstrip text = text.
Proof.
  intros H. unfold rstrip. rewrite lstrip_id.
  - apply reverse_involutive.
  - by rewrite head_reverse.
Qed.

Lemma split_strip text : split (strip text) = split text.
Proof. unfold strip. by rewrite split_rstrip, split_lstrip. Qed.

Lemma count_tokens_tag tag text :
  count_tokens (tag ++ 32%N :: text)
  = count_tokens tag + count_tokens text.
Proof.
  unfold count_tokens, split. rewrite split_from_space by done.
  rewrite length_app. unfold split. lia.
Qed.

(** X6. [strip] leaves a text that neither starts nor ends with
    whitespace, stripping again changes nothing, and the words of the text
    (hence its token estimate) are untouched. *)
Theorem strip_spec (text : str) :
  from_option isspace false (head (strip text)) = false
  ∧ from_option isspace false (last (strip text)) = false
  ∧ strip (strip text) = strip text
  ∧ split (strip text) = split text
  ∧ count_tokens (strip text) = count_tokens text.
Proof.
  assert (from_option isspace false (head (strip text)) = false) as Hh
    by apply rstrip_head, lstrip_head.
  assert (from_option isspace false (last (strip text)) = false) as Hl
    by apply rstrip_last.
  split_and!; try done.
  - unfold strip at 1. rewrite (lstrip_id _ Hh). by apply rstrip_id.
  - apply split_strip.
  - unfold count_tokens. by rewrite split_strip.
Qed.

(** X7. A turn costs one token more than its text: the tag ["User:"] or
    ["Bot:"] counts as a word. For a bot turn the text is the model's
    answer, stripped or not; the fallback turn costs 10 tokens. *)
Theorem turn_tokens (question : str) (content : str) :
  count_tokens (lit "User: " ++ question) = 1 + count_tokens question
  ∧ count_tokens (lit "Bot: " ++ reply (Some content)) = 1 + count_tokens content
  ∧ count_tokens (lit "Bot: " ++ reply None) = 10.
Proof.
  split_and!.
  - change (lit "User: " ++ question) with (lit "User:" ++ 32%N :: question).
    by rewrite count_tokens_tag.
  - change (lit "Bot: " ++ reply (Some content))
      with (lit "Bot:" ++ 32%N :: strip content).
    rewrite count_tokens_tag. unfold count_tokens at 2. by rewrite split_strip.
  - reflexivity.
Qed.

(** ** [chunked_send] *)

Lemma sent_sends {A} (g : A → str) (l : list A) :
  sent ((λ i, Send (g i)) <$> l) = g <$> l.
Proof. induction l as [|i l IH]; [done|]. cbn. by f_equal. Qed.

Lemma sent_chunked_send text :
  sent (chunked_send text)
  = (λ k, take 2000 (drop (k * 2000) text))
    <$> seq 0 ((length text + 2000 - 1) / 2000)%nat.
Proof.
  unfold chunked_send, range_step.
  rewrite (sent_sends (λ i, take 2000 (drop i text))).
  by rewrite <- list_fmap_compose.
Qed.

Lemma chunks_join (step : nat) (text : str) (n : nat) :
  mjoin ((λ k, take step (drop (k * step) text)) <$> seq 0 n)
  = take (n * step) text.
Proof.
  induction n as [|n IH]; [done|].
  rewrite seq_S, fmap_app, join_app, IH. cbn [fmap list_fmap mjoin list_join plus].
  rewrite app_nil_r, take_take_drop. f_equal. lia.
Qed.

Lemma sent_text_chunked_send text : sent_text (chunked_send text) = text.
Proof.
  unfold sent_text. rewrite sent_chunked_send, chunks_join.
  apply take_ge.
  pose proof (Nat.div_mod_eq (length text + 2000 - 1) 2000).
  pose proof (Nat.mod_upper_bound (length text + 2000 - 1) 2000). lia.
Qed.

(** X8. The chunks [chunked_send] sends are, put end to end, the text:
    nothing is lost, repeated or reordered. *)
Theorem chunked_send_text (text : str) :
  sent_text (chunked_send text) = text.
Proof. apply sent_text_chunked_send. Qed.

(** X9. [chunked_send] sends ceil(len/2000) messages, none for the empty
    text; every message is non-empty and at most 2000 code points long,
    and all but the last are exactly 2000 long. *)
Theorem chunked_send_chunks (text : str) :
  length (sent (chunked_send text)) = ((length text + 1999) / 2000)%nat
  ∧ Forall (λ chunk, (0 < length chunk ≤ 2000)%nat) (sent (chunked_send text))
  ∧ Forall (λ chunk, length chunk = 2000%nat)
      (take (length (sent (chunked_send text)) - 1) (sent (chunked_send text))).
Proof.
  rewrite sent_chunked_send.
  replace (length text + 2000 - 1)%nat with (length text + 1999)%nat by lia.
  set (n := ((length text + 1999) / 2000)%nat).
  assert (n * 2000 < length text + 2000)%nat as Hn.
  { pose proof (Nat.div_mod_eq (length text + 1999) 2000). subst n. lia. }
  split_and!.
  - by rewrite length_fmap, length_seq.
  - apply Forall_fmap, Forall_seq. intros k Hk. cbn.
    rewrite length_take, length_drop. nia.
  - rewrite length_fmap, length_seq, <- fmap_take, take_seq.
    apply Forall_fmap, Forall_seq. intros k Hk. cbn.
    rewrite length_take, length_drop. nia.
Qed.

(** ** More on the truncation loop *)

Lemma truncate_suffix conversation :
  (truncate conversation).2 `suffix_of` conversation.
Proof.
  induction conversation as [|msg rest IH]; [done|].
  rewrite truncate_cons.
  destruct (total_tokens (msg :: rest) >? TOKEN_LIMIT); [|done].
  by apply suffix_cons_r.
Qed.

Lemma truncate_removed conversation :
  (truncate conversation).1 = [] ↔ total_tokens conversation ≤ TOKEN_LIMIT.
Proof.
  split; [|by intros ->%truncate_within].
  destruct conversation as [|msg rest]; [done|].
  rewrite truncate_cons.
  destruct (total_tokens (msg :: rest) >? TOKEN_LIMIT) eqn:E; [done|]. lia.
Qed.

(** X10. What the loop keeps is the longest tail of the conversation that
    fits the limit: every tail within [TOKEN_LIMIT] is a tail of what is
    kept. *)
Theorem truncate_longest (conversation tail : list str) :
  tail `suffix_of` conversation →
  total_tokens tail ≤ TOKEN_LIMIT →
  tail `suffix_of` (truncate conversation).2.
Proof.
  intros Hsuf Htail. induction conversation as [|msg rest IH]; [done|].
  rewrite truncate_cons.
  destruct (total_tokens (msg :: rest) >? TOKEN_LIMIT) eqn:E; [|done].
  cbn [snd]. apply IH.
  destruct Hsuf as [[|x k] Hk]; simplify_eq/=; [lia|by exists k].
Qed.

Lemma truncate_longest_witness :
  [lit "User: b"] `suffix_of` (truncate [lit "User: a"; lit "User: b"]).2.
Proof.
  apply (truncate_longest [lit "User: a"; lit "User: b"] [lit "User: b"]).
  - by exists [lit "User: a"].
  - vm_compute. discriminate.
Defined.

(** X11. The loop removes something exactly when the conversation is
    above the limit, and running it again on what it kept removes nothing:
    one pass is enough. *)
Theorem truncate_once (conversation : list str) :
  ((truncate conversation).1 = [] ↔ total_tokens conversation ≤ TOKEN_LIMIT)
  ∧ truncate (truncate conversation).2 = ([], (truncate conversation).2).
Proof.
  split; [apply truncate_removed|].
  apply truncate_within, truncate_bound.
Qed.

(** ** The conversation ledger along a run *)

Lemma conversation_of_exec a s user_id :
  wf s → conversation_of (exec a s) user_id = conversation_after a s user_id.
Proof.
  intros Hs. destruct a as [r|now]; [|done].
  destruct r as [ctx q o|ctx mood now|ctx add|ctx o|ctx text o];
    cbn [exec handle conversation_after].
  - destruct (decide (user_id = author_id ctx)) as [->|Hne].
    + by apply ask_conversation_eq.
    + by apply ask_conversation_ne.
  - done.
  - by apply story_conversation.
  - by rewrite trivia_state.
  - by rewrite summarize_state.
Qed.

Lemma with_question_suffix question conversation :
  with_question question conversation
  `suffix_of` conversation ++ [lit "User: " ++ question].
Proof. apply truncate_suffix. Qed.

(** X12. In every run, a question that fits (the ledger, the question and
    its tag stay within [TOKEN_LIMIT]) removes nothing: the ledger gains
    the user turn and the bot turn, in this order, after all it held. *)
Theorem ask_within_limit (acts : list action) (ctx : Context)
    (question : str) (outcome : option str) :
  let s := run acts initial in
  total_tokens (conversation_of s (author_id ctx)) + 1 + count_tokens question
    ≤ TOKEN_LIMIT →
  conversation_of (ask_with_mood s ctx question outcome).1 (author_id ctx)
  = conversation_of s (author_id ctx)
    ++ [lit "User: " ++ question; lit "Bot: " ++ reply outcome].
Proof.
  intros s Hfit. assert (wf s) as Hs by apply wf_run, wf_initial.
  rewrite ask_conversation_eq by done. unfold after_ask, with_question.
  rewrite truncate_within; [cbn [snd]; by rewrite <- app_assoc|].
  rewrite total_tokens_app. cbn [total_tokens foldr].
  change (lit "User: " ++ question) with (lit "User:" ++ 32%N :: question).
  rewrite count_tokens_tag. change (count_tokens (lit "User:")) with 1. lia.
Qed.

Lemma ask_within_limit_witness :
  conversation_of
    (ask_with_mood (run [Command (Ask alice (lit "hi") None)] initial)
       alice (lit "and then?") None).1 (author_id alice)
  = conversation_of (run [Command (Ask alice (lit "hi") None)] initial)
      (author_id alice)
    ++ [lit "User: " ++ lit "and then?"; lit "Bot: " ++ reply None].
Proof.
  apply (ask_within_limit [Command (Ask alice (lit "hi") None)] alice
           (lit "and then?") None).
  vm_compute. discriminate.
Defined.

(** X13. In every run, a question of [TOKEN_LIMIT] words or more wipes the
    user's ledger: the loop removes every earlier turn and the question's
    own turn, the model is called on an empty conversation, and the ledger
    is left with the bot turn alone. *)
Theorem ask_oversized (acts : list action) (ctx : Context)
    (question : str) (outcome : option str) :
  let s := run acts initial in
  TOKEN_LIMIT ≤ count_tokens question →
  prompts (ask_with_mood s ctx question outcome).2
  = [build_prompt question (current_mood s (author_id ctx)) []]
  ∧ conversation_of (ask_with_mood s ctx question outcome).1 (author_id ctx)
    = [lit "Bot: " ++ reply outcome].
Proof.
  intros s Hbig. assert (wf s) as Hs by apply wf_run, wf_initial.
  assert (with_question question (conversation_of s (author_id ctx)) = []) as Hw.
  { pose proof (truncate_bound
                  (conversation_of s (author_id ctx) ++ [lit "User: " ++ question]))
      as Hb.
    unfold with_question.
    destruct (truncate_snoc (conversation_of s (author_id ctx))
                (lit "User: " ++ question)) as [H|[kept H]]; [done|].
    rewrite H, total_tokens_app in Hb. cbn [total_tokens foldr] in Hb.
    change (lit "User: " ++ question) with (lit "User:" ++ 32%N :: question) in Hb.
    rewrite count_tokens_tag in Hb.
    change (count_tokens (lit "User:")) with 1 in Hb.
    pose proof (total_tokens_nonneg kept). lia. }
  split.
  - rewrite ask_prompt by done. by rewrite Hw.
  - rewrite ask_conversation_eq by done. unfold after_ask. by rewrite Hw.
Qed.

Lemma ask_oversized_witness :
  let s := run [Command (Ask alice (lit "hi") None)] initial in
  prompts (ask_with_mood s alice (words 4000) None).2
  = [build_prompt (words 4000) (current_mood s (author_id alice)) []]
  ∧ conversation_of (ask_with_mood s alice (words 4000) None).1 (author_id alice)
    = [lit "Bot: " ++ reply None].
Proof.
  apply (ask_oversized [Command (Ask alice (lit "hi") None)] alice (words 4000) None).
  vm_compute. discriminate.
Defined.

Lemma tagged_tokens msg : tagged msg → 1 ≤ count_tokens msg.
Proof.
  intros [[question ->]|[response ->]].
  - change (lit "User: " ++ question) with (lit "User:" ++ 32%N :: question).
    rewrite count_tokens_tag. change (count_tokens (lit "User:")) with 1.
    pose proof (count_tokens_nonneg question). lia.
  - change (lit "Bot: " ++ response) with (lit "Bot:" ++ 32%N :: response).
    rewrite count_tokens_tag. change (count_tokens (lit "Bot:")) with 1.
    pose proof (count_tokens_nonneg response). lia.
Qed.

Lemma tagged_length conversation :
  Forall tagged conversation →
  Z.of_nat (length conversation) ≤ total_tokens conversation.
Proof.
  induction 1 as [|msg rest Hmsg _ IH]; [done|].
  cbn [length total_tokens foldr]. fold (total_tokens rest).
  pose proof (tagged_tokens msg Hmsg). lia.
Qed.

(** The shape [ask_with_mood] gives a ledger and keeps. *)
Lemma after_ask_shape question outcome conversation :
  Forall tagged conversation →
  Forall tagged (after_ask question outcome conversation)
  ∧ last (after_ask question outcome conversation)
    = Some (lit "Bot: " ++ reply outcome)
  ∧ (length (after_ask question outcome conversation) ≤ 4001)%nat.
Proof.
  intros Hconv.
  assert (Forall tagged (with_question question conversation)) as Hseen.
  { destruct (with_question_suffix question conversation) as [k Hk].
    assert (Forall tagged (conversation ++ [lit "User: " ++ question])) as H.
    { apply Forall_app. split; [done|]. constructor; [|constructor].
      left. by exists question. }
    rewrite Hk in H. by apply Forall_app in H as [_ H]. }
  unfold after_ask. split_and!.
  - apply Forall_app. split; [done|]. constructor; [|constructor].
    right. by exists (reply outcome).
  - apply last_snoc.
  - rewrite length_app. cbn [length].
    pose proof (tagged_length _ Hseen).
    pose proof (truncate_bound (conversation ++ [lit "User: " ++ question])) as Hb.
    fold (with_question question conversation) in Hb.
    unfold TOKEN_LIMIT in Hb. lia.
Qed.

Lemma conversation_of_initial user_id : conversation_of initial user_id = [].
Proof. unfold conversation_of, ledger, initial. cbn. by rewrite lookup_empty. Qed.

(** X14. In every run and for every user, the conversation ledger holds
    only turns tagged ["User: "] or ["Bot: "], it is empty or ends with a
    bot turn, and it never holds more than 4001 turns. *)
Theorem ledger_shape (acts : list action) (user_id : Z) :
  let ledger := conversation_of (run acts initial) user_id in
  Forall tagged ledger
  ∧ (ledger = [] ∨ ∃ response, last ledger = Some (lit "Bot: " ++ response))
  ∧ (length ledger ≤ 4001)%nat.
Proof.
  induction acts as [|a acts IH] using rev_ind.
  - cbv zeta. change (run [] initial) with initial.
    rewrite conversation_of_initial. split_and!; [constructor|by left|cbn; lia].
  - cbv zeta in *. rewrite run_snoc.
    rewrite conversation_of_exec by apply wf_run, wf_initial.
    destruct IH as (IH1 & IH2 & IH3).
    destruct a as [[ctx q o|ctx mood now|ctx add|ctx o|ctx text o]|now];
      cbn [conversation_after]; try done.
    destruct (decide (user_id = author_id ctx)) as [->|Hne]; [|done].
    destruct (after_ask_shape q o _ IH1) as (H1 & H2 & H3).
    split_and!; [done| |done]. right. by exists (reply o).
Qed.

(** ** More on the mood registry *)

Lemma state_eq (s1 s2 : State) :
  user_moods s1 = user_moods s2 → mood_timers s1 = mood_timers s2 →
  conversation_state s1 = conversation_state s2 →
  story_state s1 = story_state s2 → heap s1 = heap s2 → s1 = s2.
Proof. destruct s1, s2. cbn. by intros -> -> -> -> ->. Qed.

Lemma moods_timers_exec a s :
  dom (user_moods s) = dom (mood_timers s) →
  dom (user_moods (exec a s)) = dom (mood_timers (exec a s)).
Proof.
  intros Hdom. destruct a as [r|now]; cbn [exec].
  - destruct r as [ctx q o|ctx mood now|ctx add|ctx o|ctx text o]; cbn [handle].
    + by destruct (ask_moods s ctx q o) as [-> ->].
    + cbn. by rewrite !dom_insert_L, Hdom.
    + by destruct (story_moods s ctx add) as [-> ->].
    + by rewrite trivia_state.
    + by rewrite summarize_state.
  - apply set_eq. intros k. rewrite !elem_of_dom.
    destruct (reset_mood_task_lookup now s k) as [-> ->].
    destruct (due now (mood_timers s) k); [done|].
    by rewrite <- !elem_of_dom, Hdom.
Qed.

(** X15. In every run the two maps of the mood registry have the same
    keys: a user has a stored mood exactly when they have a timer. *)
Theorem moods_have_timers (acts : list action) :
  dom (user_moods (run acts initial)) = dom (mood_timers (run acts initial)).
Proof.
  induction acts as [|a acts IH] using rev_ind; [done|].
  rewrite run_snoc. by apply moods_timers_exec.
Qed.

(** X16. Whatever the registry held before, a mood set at time [t] is
    read back after a tick of the timer task unless the tick's clock
    reading for that user is later than [t] plus 60 minutes; in that case
    the tick removes the mood and its timer, and the default is read. *)
Theorem mood_until_due (s : State) (ctx : Context) (mood : str) (t : Z)
    (now : Z → Z) :
  let user_id := author_id ctx in
  let s' := reset_mood_task now (set_mood s ctx mood t).1 in
  current_mood s' user_id
    = (if now user_id >? t + MOOD_DURATION then FRIENDLY else mood)
  ∧ mood_timers s' !! user_id
    = (if now user_id >? t + MOOD_DURATION then None else Some (t + MOOD_DURATION)).
Proof.
  intros user_id s'. unfold current_mood, s'.
  destruct (reset_mood_task_lookup now (set_mood s ctx mood t).1 user_id)
    as [-> ->].
  unfold due. cbn [set_mood fst user_moods mood_timers].
  rewrite !lookup_insert_eq.
  by destruct (now user_id >? t + MOOD_DURATION).
Qed.

(** X17. A tick makes every earlier tick redundant: running the timer
    task with clock readings [now1] and then with readings [now2] that are
    not earlier gives the state that the second tick alone gives. In
    particular a tick repeated on the same readings changes nothing. *)
Theorem tick_absorbs (now1 now2 : Z → Z) (s : State) :
  (∀ user_id, now1 user_id ≤ now2 user_id) →
  reset_mood_task now2 (reset_mood_task now1 s) = reset_mood_task now2 s.
Proof.
  intros Hle.
  assert (∀ k, due now2 (mood_timers (reset_mood_task now1 s)) k
               = (if due now1 (mood_timers s) k then false
                  else due now2 (mood_timers s) k)
             ∧ (due now1 (mood_timers s) k = true
                → due now2 (mood_timers s) k = true)) as Hdue.
  { intros k. unfold due at 1.
    rewrite (proj2 (reset_mood_task_lookup now1 s k)).
    unfold due. destruct (mood_timers s !! k) as [timer|]; [|done].
    specialize (Hle k).
    destruct (Z.gtb_spec (now1 k) timer), (Z.gtb_spec (now2 k) timer);
      split; try done; lia. }
  apply state_eq; try done.
  - apply map_eq. intros k.
    rewrite (proj1 (reset_mood_task_lookup now2 (reset_mood_task now1 s) k)).
    rewrite (proj1 (reset_mood_task_lookup now2 s k)).
    rewrite (proj1 (reset_mood_task_lookup now1 s k)).
    destruct (Hdue k) as [-> Himp].
    destruct (due now1 (mood_timers s) k); [by rewrite Himp|done].
  - apply map_eq. intros k.
    rewrite (proj2 (reset_mood_task_lookup now2 (reset_mood_task now1 s) k)).
    rewrite (proj2 (reset_mood_task_lookup now2 s k)).
    rewrite (proj2 (reset_mood_task_lookup now1 s k)).
    destruct (Hdue k) as [-> Himp].
    destruct (due now1 (mood_timers s) k); [by rewrite Himp|done].
Qed.

Lemma tick_absorbs_witness :
  let s := (set_mood initial alice (lit "sarcastic") 0).1 in
  reset_mood_task (λ _, MINUTES_61) (reset_mood_task (λ _, 5) s)
  = reset_mood_task (λ _, MINUTES_61) s.
Proof.
  apply (tick_absorbs (λ _, 5) (λ _, MINUTES_61)
           (set_mood initial alice (lit "sarcastic") 0).1).
  intros _. vm_compute. discriminate.
Defined.

(** ** What the user is sent *)

Lemma sent_text_query messages evs :
  sent_text (Query messages :: evs) = sent_text evs.
Proof. reflexivity. Qed.

(** X18. In every run, the text a question is answered with is, chunk
    after chunk, the reply of [ask_llm] (the stripped answer of the model,
    or the fallback), and it is the text of the bot turn that ends the
    user's ledger: the ledger records what the user was sent. *)
Theorem ask_reply_recorded (acts : list action) (ctx : Context)
    (question : str) (outcome : option str) :
  let s := run acts initial in
  let r := ask_with_mood s ctx question outcome in
  sent_text r.2 = reply outcome
  ∧ last (conversation_of r.1 (author_id ctx)) = Some (lit "Bot: " ++ sent_text r.2).
Proof.
  intros s r. assert (wf s) as Hs by apply wf_run, wf_initial.
  assert (sent_text r.2 = reply outcome) as Hsent.
  { unfold r. rewrite ask_with_mood_events by apply Hs.
    by rewrite sent_text_query, sent_text_chunked_send. }
  split; [done|]. rewrite Hsent. unfold r.
  rewrite ask_conversation_eq by done. apply last_snoc.
Qed.

(** X19. [trivia] and [summarize] send the reply of [ask_llm] behind
    their fixed prefix; when the model call fails the fallback text is
    sent behind the same prefix. *)
Theorem one_shot_replies (s : State) (ctx : Context) (text : str)
    (outcome : option str) :
  sent_text (trivia s ctx outcome).2 = lit "Trivia Time: " ++ reply outcome
  ∧ sent_text (summarize s ctx text outcome).2 = lit "Summary: " ++ reply outcome
  ∧ sent_text (trivia s ctx None).2 = lit "Trivia Time: " ++ FALLBACK
  ∧ sent_text (summarize s ctx text None).2 = lit "Summary: " ++ FALLBACK.
Proof.
  unfold trivia, summarize, ask_llm. cbn [app snd].
  by rewrite !sent_text_query, !sent_text_chunked_send.
Qed.

Lemma story_events s ctx addition :
  wf s →
  (story s ctx addition).2
  = chunked_send
      match truthy addition with
      | Some text =>
          lit "Story so far:" ++ NL
          ++ join NL (story_of s (channel_id ctx)
                      ++ [author_name ctx ++ lit ": " ++ text])
      | None =>
          match story_of s (channel_id ctx) with
          | [] => NO_STORY
          | _ :: _ => STORY_READ_PREFIX ++ join NL (story_of s (channel_id ctx))
          end
      end.
Proof.
  intros Hs. pose proof (story_valid _ Hs) as Hv. unfold story.
  destruct (getitem (story_state s) (heap s) (channel_id ctx))
    as [[l ss] h] eqn:Hget.
  pose proof (getitem_deref _ _ _ _ _ _ Hv Hget) as Hd.
  fold (story_of s (channel_id ctx)) in Hd.
  destruct (truthy addition) as [text|]; cbn [snd].
  - unfold list_append.
    rewrite deref_alter_eq by apply (getitem_bound _ _ _ _ _ _ Hv Hget).
    by rewrite Hd.
  - by rewrite Hd.
Qed.

(** X20. In every run, a contribution (a non-empty addition) is appended
    to the story of its channel as ["<author>: <addition>"], and the
    reply shows the whole story, the new line last. *)
Theorem story_contribution (acts : list action) (ctx : Context)
    (c : N) (rest : str) :
  let s := run acts initial in
  let line := author_name ctx ++ lit ": " ++ c :: rest in
  let r := story s ctx (Some (c :: rest)) in
  story_of r.1 (channel_id ctx) = story_of s (channel_id ctx) ++ [line]
  ∧ sent_text r.2
    = lit "Story so far:" ++ NL ++ join NL (story_of s (channel_id ctx) ++ [line]).
Proof.
  intros s line r. assert (wf s) as Hs by apply wf_run, wf_initial.
  split.
  - unfold r. by rewrite story_story_eq.
  - unfold r. rewrite story_events by done. apply sent_text_chunked_send.
Qed.

(** X21. In every run, a story command without addition, or with the
    empty addition, is a read: it leaves the story as it is and replies
    with the sentinel when the story is empty, with the prefix of line 212
    followed by the lines of the story otherwise. *)
Theorem story_read (acts : list action) (ctx : Context) :
  let s := run acts initial in
  let lines := story_of s (channel_id ctx) in
  story s ctx (Some []) = story s ctx None
  ∧ story_of (story s ctx None).1 (channel_id ctx) = lines
  ∧ sent_text (story s ctx None).2
    = match lines with
      | [] => NO_STORY
      | _ :: _ => STORY_READ_PREFIX ++ join NL lines
      end.
Proof.
  intros s lines. assert (wf s) as Hs by apply wf_run, wf_initial.
  split_and!.
  - done.
  - by rewrite story_story_eq.
  - rewrite story_events by done. apply sent_text_chunked_send.
Qed.

(** ** The default conversation of [ask_llm] *)

(** X22. In every run the list object that is the default value of
    [ask_llm]'s [conversation] parameter stays empty, and no user and no
    channel is ever bound to it: the one-shot commands always call the
    model on an empty conversation. *)
Theorem default_conversation_untouched (acts : list action) (key : Z) :
  let s := run acts initial in
  deref (heap s) DEFAULT_CONVERSATION = []
  ∧ conversation_state s !! key ≠ Some DEFAULT_CONVERSATION
  ∧ story_state s !! key ≠ Some DEFAULT_CONVERSATION.
Proof.
  intros s. assert (wf s) as [Hh Hd Hc Hs Hcu Hsu Hap] by apply wf_run, wf_initial.
  split_and!; [done| |].
  - intros H. apply Hc in H. lia.
  - intros H. apply Hs in H. lia.
Qed.

(** ** The keys of the stores *)

Lemma getitem_keys d h key key' :
  is_Some ((getitem d h key).1.2 !! key') ↔ key' = key ∨ is_Some (d !! key').
Proof.
  unfold getitem. destruct (d !! key) as [l|] eqn:E; cbn [fst snd].
  - split; [by right|]. intros [->|H]; [by rewrite E|done].
  - rewrite lookup_insert. destruct (decide (key = key')) as [->|Hne].
    + split; [by left|done].
    + split; [by right|]. intros [->|H]; done.
Qed.

Lemma ask_stores s ctx question outcome user_id :
  (is_Some (conversation_state (ask_with_mood s ctx question outcome).1 !! user_id)
   ↔ user_id = author_id ctx ∨ is_Some (conversation_state s !! user_id))
  ∧ story_state (ask_with_mood s ctx question outcome).1 = story_state s.
Proof.
  pose proof (getitem_keys (conversation_state s) (heap s) (author_id ctx) user_id)
    as Hk.
  unfold ask_with_mood, ask_llm.
  destruct (getitem (conversation_state s) (heap s) (author_id ctx))
    as [[l cs] h].
  cbn [fst snd conversation_state story_state] in *. split; [|done].
  rewrite lookup_insert. destruct (decide (author_id ctx = user_id)) as [->|Hne].
  - split; [by left|done].
  - rewrite Hk. split; intros [?|?]; first [by left|by right].
Qed.

Lemma story_stores s ctx addition channel :
  (is_Some (story_state (story s ctx addition).1 !! channel)
   ↔ channel = channel_id ctx ∨ is_Some (story_state s !! channel))
  ∧ conversation_state (story s ctx addition).1 = conversation_state s.
Proof.
  pose proof (getitem_keys (story_state s) (heap s) (channel_id ctx) channel)
    as Hk.
  unfold story.
  destruct (getitem (story_state s) (heap s) (channel_id ctx)) as [[l ss] h].
  cbn [fst snd] in Hk.
  by destruct (truthy addition).
Qed.

Lemma stores_keys_exec a s user_id channel :
  (is_Some (conversation_state (exec a s) !! user_id)
   ↔ asks user_id a = true ∨ is_Some (conversation_state s !! user_id))
  ∧ (is_Some (story_state (exec a s) !! channel)
     ↔ tells channel a = true ∨ is_Some (story_state s !! channel)).
Proof.
  assert (∀ P : Prop, P ↔ false = true ∨ P) as Hno
    by (intros P; split; [by right|by intros [?|?]]).
  destruct a as [[ctx q o|ctx mood now|ctx add|ctx o|ctx text o]|now];
    cbn [exec handle asks tells].
  - destruct (ask_stores s ctx q o user_id) as [-> ->].
    rewrite bool_decide_eq_true. split; [|apply Hno].
    split; intros [?|?]; first [by left|by right].
  - split; apply Hno.
  - destruct (story_stores s ctx add channel) as [-> ->].
    rewrite bool_decide_eq_true. split; [apply Hno|].
    split; intros [?|?]; first [by left|by right].
  - rewrite trivia_state. split; apply Hno.
  - rewrite summarize_state. split; apply Hno.
  - split; apply Hno.
Qed.

(** X23. In every run the conversation store holds an entry for exactly
    the users who have asked a question, and the story store for exactly
    the channels on which a story command was issued, a mere read
    included: [defaultdict] binds the key on first access, and no
    operation ever removes a key from either store. *)
Theorem stores_keys (acts : list action) (user_id channel : Z) :
  let s := run acts initial in
  (is_Some (conversation_state s !! user_id)
   ↔ Exists (λ a, asks user_id a = true) acts)
  ∧ (is_Some (story_state s !! channel)
     ↔ Exists (λ a, tells channel a = true) acts).
Proof.
  induction acts as [|a acts IH] using rev_ind.
  - cbn. rewrite !lookup_empty, !Exists_nil.
    split; split; by intros []%is_Some_None || done.
  - cbv zeta in *. rewrite run_snoc, !Exists_app, !Exists_cons, !Exists_nil.
    destruct IH as [IH1 IH2].
    destruct (stores_keys_exec a (run acts initial) user_id channel) as [-> ->].
    rewrite IH1, IH2. split; tauto.
Qed.

(** ** The size of the prompt *)

Lemma count_tokens_space a c b :
  isspace c = true →
  count_tokens (a ++ c :: b) = count_tokens a + count_tokens b.
Proof.
  intros Hc. unfold count_tokens, split. rewrite split_from_space by done.
  rewrite length_app. unfold split. lia.
Qed.

Lemma count_tokens_join conversation :
  count_tokens (join NL conversation) = total_tokens conversation.
Proof.
  induction conversation as [|msg rest IH]; [done|].
  destruct rest as [|msg' rest].
  - cbn [join total_tokens foldr]. lia.
  - change (join NL (msg :: msg' :: rest))
      with (msg ++ 10%N :: join NL (msg' :: rest)).
    rewrite count_tokens_space by done. rewrite IH. done.
Qed.

Lemma build_prompt_tokens question mood conversation :
  count_tokens (build_prompt question mood conversation)
  = 5 + count_tokens mood + total_tokens conversation + count_tokens question.
Proof.
  change (build_prompt question mood conversation)
    with (lit "Respond in a" ++ 32%N :: mood ++ 32%N :: lit "tone."
          ++ 10%N :: join NL conversation ++ 10%N :: lit "User:"
          ++ 32%N :: question).
  rewrite !count_tokens_space by done. rewrite count_tokens_join.
  change (count_tokens (lit "Respond in a")) with 3.
  change (count_tokens (lit "tone.")) with 1.
  change (count_tokens (lit "User:")) with 1. lia.
Qed.

(** X24. In every run, the one prompt of a question has 5 tokens of fixed
    text, plus those of the mood, of the conversation as the loop left it,
    and of the question; so it has at most [TOKEN_LIMIT] + 5 tokens more
    than the mood and the question have. *)
Theorem ask_prompt_tokens (acts : list action) (ctx : Context)
    (question : str) (outcome : option str) :
  let s := run acts initial in
  let mood := current_mood s (author_id ctx) in
  let seen := with_question question (conversation_of s (author_id ctx)) in
  let prompt := build_prompt question mood seen in
  prompts (ask_with_mood s ctx question outcome).2 = [prompt]
  ∧ count_tokens prompt
    = 5 + count_tokens mood + total_tokens seen + count_tokens question
  ∧ count_tokens prompt
    ≤ TOKEN_LIMIT + 5 + count_tokens mood + count_tokens question.
Proof.
  intros s mood seen prompt. assert (wf s) as Hs by apply wf_run, wf_initial.
  assert (total_tokens seen ≤ TOKEN_LIMIT) as Hseen by apply truncate_bound.
  unfold prompt. rewrite build_prompt_tokens.
  split_and!; [by apply ask_prompt|done|lia].
Qed.

(** ** The model catalogue *)

Lemma startswith_spec prefix text :
  startswith prefix text = true ↔ ∃ rest, text = prefix ++ rest.
Proof.
  revert text. induction prefix as [|p prefix IH]; intros text.
  - split; [by exists text|done].
  - destruct text as [|c text]; cbn [startswith].
    + split; [done|]. by intros [rest ?].
    + rewrite andb_true_iff, N.eqb_eq, IH. split.
      * intros [-> [rest ->]]. by exists rest.
      * intros [rest [= -> ->]]. split; [done|by exists rest].
Qed.

Lemma contains_spec needle text :
  contains needle text = true ↔ ∃ before after, text = before ++ needle ++ after.
Proof.
  induction text as [|c text IH].
  - cbn [contains]. rewrite orb_false_r, startswith_spec. split.
    + intros [rest ->]. by exists [], rest.
    + intros (before & after & H). destruct before; [by exists after|done].
  - cbn [contains]. rewrite orb_true_iff, startswith_spec, IH. split.
    + intros [[rest ->]|(before & after & ->)].
      * by exists [], rest.
      * by exists (c :: before), after.
    + intros ([|x before] & after & H).
      * left. by exists after.
      * right. injection H as -> ->. by exists before, after.
Qed.

(** X25. [get_llm] builds the chat client exactly for the model ids that
    begin with ["anthropic."], the text-completion client for all others;
    [DEFAULT_MODEL], the only id the commands use, gets the chat client. *)
Theorem get_llm_spec (model_id : str) :
  (get_llm model_id = ChatBedrock model_id
   ↔ ∃ rest, model_id = lit "anthropic." ++ rest)
  ∧ (get_llm model_id = BedrockLLM model_id
     ↔ ¬ ∃ rest, model_id = lit "anthropic." ++ rest)
  ∧ get_llm DEFAULT_MODEL = ChatBedrock DEFAULT_MODEL.
Proof.
  unfold get_llm. rewrite <- startswith_spec.
  destruct (startswith (lit "anthropic.") model_id);
    split_and!; try done; split; try done; by intros ?.
Qed.

(** X26. With a non-empty catalogue and at least one argument, [models]
    lists, one per line and in catalogue order, exactly the entries whose
    provider name, model name or model id, lowered, contains the lowered
    query (the arguments joined by spaces) as a substring; when there is
    none it says so, quoting the query. *)
Theorem models_query (lower : str → str) (first : model_summary)
    (others : list model_summary) (arg : str) (args : list str) :
  let catalogue := first :: others in
  let query := lower (join (lit " ") (arg :: args)) in
  let within field := ∃ before after, lower field = before ++ query ++ after in
  let hits := filter (λ model, model_matches lower query model = true) catalogue in
  hits `sublist_of` catalogue
  ∧ (∀ model, model ∈ hits ↔
       model ∈ catalogue
       ∧ (within (providerName model) ∨ within (modelName model)
          ∨ within (modelId model)))
  ∧ sent_text (models lower catalogue (arg :: args))
    = match hits with
      | _ :: _ => join NL (model_line <$> hits)
      | [] => lit "No models found matching `" ++ query
              ++ lit "`. Try using a provider or model name."
      end.
Proof.
  intros catalogue query within hits. split_and!.
  - apply sublist_filter.
  - intros model. unfold hits. rewrite list_elem_of_filter.
    unfold model_matches, within.
    rewrite !orb_true_iff, !contains_spec. tauto.
  - unfold models. cbn [catalogue]. fold catalogue. fold query. fold hits.
    rewrite sent_text_chunked_send. by destruct hits.
Qed.

(** ** The ledger as a function of the user's questions *)

(** X27. In every run, the conversation ledger of a user is what that
    user's own questions and their outcomes produce, taken in order: no
    tick of the timer task, no mood change, story command, trivia or
    summary, and no question of another user has any effect on it. *)
Theorem conversation_replay (acts : list action) (user_id : Z) :
  conversation_of (run acts initial) user_id = replay user_id acts.
Proof.
  induction acts as [|a acts IH] using rev_ind.
  - apply conversation_of_initial.
  - rewrite run_snoc, conversation_of_exec by apply wf_run, wf_initial.
    unfold replay. rewrite foldl_snoc. fold (replay user_id acts).
    rewrite <- IH.
    by destruct a as [[ctx q o|ctx mood now|ctx add|ctx o|ctx text o]|now].
Qed.

(** ** From [set_mood] to the prompt *)

(** X28. In every run, the question a user asks right after setting a
    mood gets one prompt, which begins with the instruction naming that
    mood and ends with the question as a user turn, whatever the
    truncation loop removed in between. *)
Theorem mood_reaches_prompt (acts : list action) (ctx : Context)
    (mood : str) (now : Z) (question : str) (outcome : option str) :
  let s := (set_mood (run acts initial) ctx mood now).1 in
  ∃ prompt,
    prompts (ask_with_mood s ctx question outcome).2 = [prompt]
    ∧ (lit "Respond in a " ++ mood ++ lit " tone." ++ NL) `prefix_of` prompt
    ∧ (NL ++ lit "User: " ++ question) `suffix_of` prompt.
Proof.
  intros s. assert (wf s) as Hs by apply wf_set_mood, wf_run, wf_initial.
  eexists. split; [by apply ask_prompt|].
  assert (current_mood s (author_id ctx) = mood) as ->.
  { unfold current_mood, s. cbn. by rewrite lookup_insert_eq. }
  unfold build_prompt. split.
  - eexists. by rewrite <- !app_assoc.
  - eexists. by rewrite !app_assoc.
Qed.
